(** * covmatrix: finite-difference Hessian and covariance

    A shallow embedding of [covmatrix.py]: the Hessian of a scalar function
    by central finite differences ([calc_hess], [calc_partial_ii],
    [calc_partial_ij]), the input normaliser ([_get_x_and_h]) and the
    covariance [-H^{-1}] ([calc_cov]).

    The program works on numpy arrays, which are mutable objects that can be
    shared: [array(x, ndmin=1, copy=False)] hands back the caller's own array
    and [xin.copy()] makes a new one.  The embedding keeps a store of arrays
    addressed by references, and records every call of the objective
    function with the contents of the array it was called on.

    The arithmetic is kept behind an interface, [Scalar]: the theorems hold
    for every implementation of it, IEEE binary64 ([FloatScalar]) included. *)

From Stdlib Require Import Floats QArith Qcanon.
From stdpp Require Import list strings pretty.

Set Default Proof Using "Type".

(** ** Scalars *)

(** The operations the source applies to numbers: the literals [0] (of
    [zeros]), [2] and [4.], the four arithmetic operations, unary minus and
    [h**2].  Division is total, as numpy's is: a zero divisor gives an
    infinity or a NaN, not an exception. *)
Class Scalar (R : Type) := {
  s_zero : R;
  s_two : R;
  s_four : R;
  s_add : R → R → R;
  s_sub : R → R → R;
  s_mul : R → R → R;
  s_div : R → R → R;
  s_neg : R → R;
  s_sqr : R → R;
}.

Declare Scope scalar_scope.
Delimit Scope scalar_scope with sc.
Infix "+" := s_add : scalar_scope.
Infix "-" := s_sub : scalar_scope.
Infix "*" := s_mul : scalar_scope.
Infix "/" := s_div : scalar_scope.

(** ** Exceptions and outcomes *)

Inductive exn :=
  | ValueError (msg : string)
  | IndexError
  | LinAlgError
  | DanglingRef.  (* a reference outside the store: no Python program has one *)

Inductive outcome (A : Type) :=
  | Return (a : A)
  | Raise (e : exn).
Arguments Return {A} a.
Arguments Raise {A} e.

(** A reference to an array of the store. *)
Abbreviation loc := nat (only parsing).

Section Program.
Context {R : Type} `{Scalar R}.

Abbreviation vector := (list R) (only parsing).
Abbreviation matrix := (list (list R)) (only parsing).

(** The store: the one-dimensional arrays (points and steps) allocated so
    far, and the log of the points the objective function was evaluated at,
    oldest first.  The matrix [hess] of [calc_hess] is not kept here: no
    other code holds it before it is returned. *)
Record store := Store {
  heap : list vector;
  evals : list vector;
}.

(** ** The monad of the program: state that survives an exception *)

Definition M (A : Type) := store → outcome A * store.

Definition ret {A} (a : A) : M A := λ σ, (Return a, σ).
Definition raise {A} (e : exn) : M A := λ σ, (Raise e, σ).
Definition bind {A B} (m : M A) (k : A → M B) : M B :=
  λ σ, match m σ with
       | (Return a, σ') => k a σ'
       | (Raise e, σ') => (Raise e, σ')
       end.

Notation "x <- m ;; k" := (bind m (λ x, k))
  (at level 100, m at next level, right associativity).

(** ** Arrays in the store *)

Definition alloc (v : vector) : M loc :=
  λ σ, (Return (length (heap σ)), Store (heap σ ++ [v]) (evals σ)).

Definition deref (a : loc) : M vector :=
  λ σ, match heap σ !! a with
       | Some v => (Return v, σ)
       | None => (Raise DanglingRef, σ)
       end.

(** [a.size] *)
Definition size (a : loc) : M nat :=
  v <- deref a ;; ret (length v).

(** [a.copy()] *)
Definition copy (a : loc) : M loc :=
  v <- deref a ;; alloc v.

(** [a[i]] *)
Definition getitem (a : loc) (i : nat) : M R :=
  v <- deref a ;;
  match v !! i with
  | Some r => ret r
  | None => raise IndexError
  end.

(** [a[i] = r]: the array [a] itself is changed, for every holder of [a]. *)
Definition setitem (a : loc) (i : nat) (r : R) : M unit :=
  v <- deref a ;;
  if decide (i < length v)
  then λ σ, (Return (), Store (<[a := <[i := r]> v]> (heap σ)) (evals σ))
  else raise IndexError.

(** [func(a)]: a pure objective function reads the array and returns a
    number; the call is logged. *)
Definition call (func : vector → R) (a : loc) : M R :=
  v <- deref a ;;
  λ σ, (Return (func v), Store (heap σ) (evals σ ++ [v])).

(** ** Arguments as Python passes them *)

Inductive pyarg :=
  | PyScalar (r : R)        (* a bare number *)
  | PySeq (l : vector)      (* a list or tuple of numbers *)
  | NdArray (a : loc).      (* a one-dimensional numpy array *)

Definition isscalar (v : pyarg) : bool :=
  match v with PyScalar _ => true | _ => false end.

(** [array(v, ndmin=1, copy=False)]: a new array for a number or a list,
    the very same array for an array. *)
Definition array (v : pyarg) : M loc :=
  match v with
  | PyScalar r => alloc [r]
  | PySeq l => alloc l
  | NdArray a => _ <- deref a ;; ret a
  end.

(** [zeros(n)] and [zeros((n, m))] *)
Definition zeros (n : nat) : vector := replicate n s_zero.
Definition zeros2 (n m : nat) : matrix := replicate n (zeros m).

(** [v + s] with the number [s] broadcast over [v]. *)
Definition add_scalar (v : vector) (s : R) : vector :=
  map (λ z, (z + s)%sc) v.

(** The matrix [hess] is local to [calc_hess]: it is threaded as a value.
    [m[i,j]] and [m[i,j] = r] raise on an index out of range. *)
Definition getitem2 (m : matrix) (i j : nat) : M R :=
  match m !! i with
  | Some row =>
      match row !! j with
      | Some r => ret r
      | None => raise IndexError
      end
  | None => raise IndexError
  end.

Definition setitem2 (m : matrix) (i j : nat) (r : R) : M matrix :=
  match m !! i with
  | Some row =>
      if decide (j < length row)
      then ret (<[i := <[j := r]> row]> m)
      else raise IndexError
  | None => raise IndexError
  end.

(** [range(lo, hi)] and a [for] loop that threads the loop's variables. *)
Definition range (lo hi : nat) : list nat := seq lo (hi - lo).

Fixpoint for_ {S} (l : list nat) (body : nat → S → M S) (s : S) : M S :=
  match l with
  | [] => ret s
  | i :: l' => s' <- body i s ;; for_ l' body s'
  end.

Definition dimension_message (hsize xsize : nat) : string :=
  "h and x have different dimensions: " +:+ pretty hsize +:+ " " +:+ pretty xsize.

(** ** The program *)

Definition _get_x_and_h (x h : pyarg) : M (loc * loc) :=
  x <- array x ;;
  ndim <- size x ;;
  match h with
  | PyScalar s =>
      h <- alloc (add_scalar (zeros ndim) s) ;;
      ret (x, h)
  | _ =>
      h <- array h ;;
      hsize <- size h ;;
      xsize <- size x ;;
      if decide (hsize ≠ xsize)
      then raise (ValueError (dimension_message hsize xsize))
      else ret (x, h)
  end.

Definition calc_partial_ii (func : vector → R) (xin : loc) (i : nat) (h : R) : M R :=
  x <- copy xin ;;
  xi <- getitem xin i ;;
  _ <- setitem x i (xi + h)%sc ;;
  f1 <- call func x ;;
  f2 <- call func xin ;;
  xi <- getitem xin i ;;
  _ <- setitem x i (xi - h)%sc ;;
  f3 <- call func x ;;
  let num := (f1 - s_two * f2 + f3)%sc in
  let denom := s_sqr h in
  let deriv := (num / denom)%sc in
  ret deriv.

Definition calc_partial_ij (func : vector → R) (xin : loc) (i j : nat) (h k : R) : M R :=
  x <- copy xin ;;
  xi <- getitem xin i ;;
  _ <- setitem x i (xi + h)%sc ;;
  xj <- getitem xin j ;;
  _ <- setitem x j (xj + k)%sc ;;
  f1 <- call func x ;;
  xj <- getitem xin j ;;
  _ <- setitem x j (xj - k)%sc ;;
  f2 <- call func x ;;
  xi <- getitem xin i ;;
  _ <- setitem x i (xi - h)%sc ;;
  xj <- getitem xin j ;;
  _ <- setitem x j (xj + k)%sc ;;
  f3 <- call func x ;;
  xj <- getitem xin j ;;
  _ <- setitem x j (xj - k)%sc ;;
  f4 <- call func x ;;
  let num := (f1 - f2 - f3 + f4)%sc in
  let denom := (s_four * h * k)%sc in
  let deriv := (num / denom)%sc in
  ret deriv.

Definition calc_hess (func : vector → R) (x h : pyarg) : M matrix :=
  xh <- _get_x_and_h x h ;;
  let '(x, h) := xh in
  ndim <- size x ;;
  let hess := zeros2 ndim ndim in
  for_ (range 0 ndim) (λ i hess,
    for_ (range i ndim) (λ j hess,
      if decide (i = j) then
        hi <- getitem h i ;;
        d <- calc_partial_ii func x i hi ;;
        setitem2 hess i i d
      else
        hi <- getitem h i ;;
        hj <- getitem h j ;;
        d <- calc_partial_ij func x i j hi hj ;;
        hess <- setitem2 hess i j d ;;
        d' <- getitem2 hess i j ;;
        setitem2 hess j i d') hess) hess.

(** The linear-algebra library is not part of the program: [linalg.inv] is
    taken as given, a function that inverts a square matrix or fails. *)
Class Linalg := { linalg_inv : matrix → option matrix }.

Definition mneg (m : matrix) : matrix := map (map s_neg) m.

Definition calc_cov `{Linalg} (func : vector → R) (x h : pyarg) : M matrix :=
  hess <- calc_hess func x h ;;
  match linalg_inv hess with
  | Some inv => let cov := mneg inv in ret cov
  | None => raise LinAlgError
  end.

(** ** The stencils, as the documentation writes them *)

(** [x + h·e_i] and [x - h·e_i]: coordinate [i] moved by [h], the others
    kept. *)
Definition plus_at (i : nat) (h : R) (xs : vector) : vector :=
  alter (λ xi, (xi + h)%sc) i xs.
Definition minus_at (i : nat) (h : R) (xs : vector) : vector :=
  alter (λ xi, (xi - h)%sc) i xs.

(** The points of the three-point stencil, in the order of evaluation. *)
Definition points_ii (xs : vector) (i : nat) (h : R) : list vector :=
  [plus_at i h xs; xs; minus_at i h xs].

(** [(f(x+h) - 2*f(x) + f(x-h)) / h**2] *)
Definition stencil_ii (func : vector → R) (xs : vector) (i : nat) (h : R) : R :=
  ((func (plus_at i h xs) - s_two * func xs + func (minus_at i h xs))
   / s_sqr h)%sc.

(** The points of the four-point stencil, in the order of evaluation. *)
Definition points_ij (xs : vector) (i j : nat) (h k : R) : list vector :=
  [plus_at j k (plus_at i h xs); minus_at j k (plus_at i h xs);
   plus_at j k (minus_at i h xs); minus_at j k (minus_at i h xs)].

(** [(f(x+h,y+k) - f(x+h,y-k) - f(x-h,y+k) + f(x-h,y-k)) / (4*h*k)] *)
Definition stencil_ij (func : vector → R) (xs : vector) (i j : nat) (h k : R) : R :=
  ((func (plus_at j k (plus_at i h xs)) - func (minus_at j k (plus_at i h xs))
    - func (plus_at j k (minus_at i h xs)) + func (minus_at j k (minus_at i h xs)))
   / (s_four * h * k))%sc.

(** ** The Hessian, as the documentation describes it *)

(** [m[i][j]], when both indices are in range. *)
Definition entry (m : matrix) (i j : nat) : option R :=
  row ← m !! i; row !! j.

(** The step of coordinate [i]. *)
Definition step (hs : vector) (i : nat) : R := default s_zero (hs !! i).

(** Entry (i,j): the three-point stencil on the diagonal, the four-point
    stencil of the pair taken in increasing order off it. *)
Definition hess_entry (func : vector → R) (xs hs : vector) (i j : nat) : R :=
  if decide (i = j) then stencil_ii func xs i (step hs i)
  else if decide (i < j) then stencil_ij func xs i j (step hs i) (step hs j)
  else stencil_ij func xs j i (step hs j) (step hs i).

Definition hessian (func : vector → R) (xs hs : vector) : matrix :=
  let n := length xs in
  map (λ i, map (λ j, hess_entry func xs hs i j) (seq 0 n)) (seq 0 n).

(** The points at which the objective function is evaluated, in order: for
    row [i], the three points of the diagonal entry and then the four points
    of every pair (i,j) with i < j. *)
Definition row_points (xs hs : vector) (i : nat) : list vector :=
  points_ii xs i (step hs i)
  ++ flat_map (λ j, points_ij xs i j (step hs i) (step hs j))
       (range (S i) (length xs)).

Definition hess_points (xs hs : vector) : list vector :=
  flat_map (row_points xs hs) (range 0 (length xs)).

(** An [n×n] matrix. *)
Definition shape (n : nat) (m : matrix) : Prop :=
  length m = n ∧ ∀ row, row ∈ m → length row = n.

(** The entries of [m] at the positions [P] are those of the Hessian. *)
Definition filled (func : vector → R) (xs hs : vector)
    (P : nat → nat → Prop) (m : matrix) : Prop :=
  shape (length xs) m
  ∧ ∀ a b, a < length xs → b < length xs → P a b →
      entry m a b = Some (hess_entry func xs hs a b).

(** The points of the pair (i,j) as the loops of [calc_hess] visit it. *)
Definition pair_points (xs hs : vector) (i j : nat) : list vector :=
  if decide (i = j) then points_ii xs i (step hs i)
  else points_ij xs i j (step hs i) (step hs j).

(** ** What the arguments stand for *)

(** The numbers an argument holds in a given store. *)
Definition contents (σ : store) (v : pyarg) : option vector :=
  match v with
  | PyScalar r => Some [r]
  | PySeq l => Some l
  | NdArray a => heap σ !! a
  end.

(** The step sizes an argument stands for at dimension [n]: a number is
    broadcast with [zeros(n) + s]. *)
Definition step_sizes (σ : store) (n : nat) (h : pyarg) : option vector :=
  match h with
  | PyScalar s => Some (add_scalar (zeros n) s)
  | _ => contents σ h
  end.

End Program.

Arguments store R : clear implicits.
Arguments pyarg R : clear implicits.
Arguments M R A : clear implicits.
Arguments Linalg R : clear implicits.

(** ** IEEE binary64

    numpy's [float64] and Python's [float] are IEEE binary64 numbers with
    round-to-nearest-even arithmetic, as are Rocq's primitive floats.
    [h**2] is taken as [h*h]: the two agree wherever the square is itself a
    binary64 number, which is the case at every value used below. *)
#[export] Instance FloatScalar : Scalar float := {|
  s_zero := 0%float;
  s_two := 2%float;
  s_four := 4%float;
  s_add := PrimFloat.add;
  s_sub := PrimFloat.sub;
  s_mul := PrimFloat.mul;
  s_div := PrimFloat.div;
  s_neg := PrimFloat.opp;
  s_sqr := λ h, (h * h)%float;
|}.

(** Modelled from the spec: the linear-algebra collaborator ("invert a
    square matrix, fail if singular"), which is numpy's and no part of the
    program.  The examples below need one inversion to run with: the
    adjugate over the determinant, refused when the determinant is zero. *)
Module RefInverse.

Definition minor (m : list (list float)) (i j : nat) : list (list float) :=
  map (delete j) (delete i m).

Definition alt_sign (k : nat) (r : float) : float :=
  if Nat.even k then r else (- r)%float.

(** Laplace expansion along the first row of an [n×n] matrix. *)
Fixpoint det (n : nat) (m : list (list float)) : float :=
  match n, m with
  | S n', row :: _ =>
      foldr PrimFloat.add 0%float
        (imap (λ k r, alt_sign k (r * det n' (minor m 0 k))%float) row)
  | _, _ => 1%float
  end.

Definition inv (m : list (list float)) : option (list (list float)) :=
  let n := length m in
  let d := det n m in
  if PrimFloat.eqb d 0%float then None
  else Some (map (λ i, map (λ j,
         (alt_sign (i + j) (det (pred n) (minor m j i)) / d)%float)
         (seq 0 n)) (seq 0 n)).

End RefInverse.

#[export] Instance FloatLinalg : Linalg float := {| linalg_inv := RefInverse.inv |}.

(** ** Exact arithmetic

    The rationals, as a second implementation of [Scalar]: the arithmetic
    of the reals on the numbers a program can write down.  A quotient by
    zero, which numpy answers with an infinity or a NaN, is zero here; the
    theorems on this instance take non-zero steps. *)
#[export] Instance QcScalar : Scalar Qc := {|
  s_zero := 0%Qc;
  s_two := Q2Qc 2;
  s_four := Q2Qc 4;
  s_add := Qcplus;
  s_sub := Qcminus;
  s_mul := Qcmult;
  s_div := Qcdiv;
  s_neg := Qcopp;
  s_sqr := λ h, (h * h)%Qc;
|}.

(** [-(x0**2 + x0*x1 + x1**2)] on the rationals. *)
Definition qbowl (v : list Qc) : Qc :=
  let a := default 0%Qc (v !! 0) in
  let b := default 0%Qc (v !! 1) in
  (- (a * a + a * b + b * b))%Qc.

(** The empty store. *)
Definition empty_store : store float := Store [] [].

(** Objective functions used in the examples. *)

(** [-(x0**2 + x0*x1 + x1**2)], with missing coordinates read as zero. *)
Definition bowl (v : list float) : float :=
  let a := default 0%float (v !! 0) in
  let b := default 0%float (v !! 1) in
  (- (a * a + a * b + b * b))%float.


(** [bowl], but for the points whose first coordinate is [9], where it is
    zero. *)
Definition bowl_but_at_nine (v : list float) : float :=
  if PrimFloat.eqb (default 0%float (v !! 0)) 9%float then 0%float else bowl v.

(** A function that tells the two zeros apart: [1.0] on [-0.0] and on the
    negatives, the float just below [1.0] elsewhere. *)
Definition zero_probe (v : list float) : float :=
  let a := default 0%float (v !! 0) in
  if PrimFloat.ltb (1 / a)%float 0%float then 1%float else (1 - 0x1p-53)%float.

(** * Running the program *)

Section Runs.
Context {R : Type} `{Scalar R}.
Implicit Types (σ : store R) (xs hs v : list R) (m : list (list R)).

Notation "x <- m ;; k" := (bind m (λ x, k))
  (at level 100, m at next level, right associativity).

(** ** Steps of the monad *)

Lemma bind_run {A B} (c : M R A) (k : A → M R B) σ a σ' :
  c σ = (Return a, σ') → bind c k σ = k a σ'.
Proof. intros Hc. unfold bind. by rewrite Hc. Qed.

Lemma bind_raise {A B} (c : M R A) (k : A → M R B) σ e σ' :
  c σ = (Raise e, σ') → bind c k σ = (Raise e, σ').
Proof. intros Hc. unfold bind. by rewrite Hc. Qed.

Lemma deref_run σ a v :
  heap σ !! a = Some v → deref a σ = (Return v, σ).
Proof. intros Ha. unfold deref. by rewrite Ha. Qed.

Lemma size_run σ a v :
  heap σ !! a = Some v → size a σ = (Return (length v), σ).
Proof. intros Ha. unfold size. by erewrite bind_run by by apply deref_run. Qed.

Lemma getitem_run σ a v i r :
  heap σ !! a = Some v → v !! i = Some r → getitem a i σ = (Return r, σ).
Proof.
  intros Ha Hi. unfold getitem.
  erewrite bind_run by by apply deref_run. by rewrite Hi.
Qed.

Lemma call_run func σ a v :
  heap σ !! a = Some v →
  call func a σ = (Return (func v), Store (heap σ) (evals σ ++ [v])).
Proof. intros Ha. unfold call. by erewrite bind_run by by apply deref_run. Qed.

Lemma copy_run σ a v :
  heap σ !! a = Some v →
  copy a σ = (Return (length (heap σ)), Store (heap σ ++ [v]) (evals σ)).
Proof. intros Ha. unfold copy. by erewrite bind_run by by apply deref_run. Qed.

(** The array allocated last, [x] in the stencil functions, sits at the end
    of the store: writes to it leave every older array alone. *)
Lemma setitem_last (h : list (list R)) v e i r :
  i < length v →
  setitem (length h) i r (Store (h ++ [v]) e)
  = (Return (), Store (h ++ [<[i := r]> v]) e).
Proof.
  intros Hi. unfold setitem.
  erewrite bind_run by by apply deref_run; apply list_lookup_middle.
  rewrite decide_True by done. cbn.
  replace (length h) with (length h + 0) at 1 by lia.
  by rewrite insert_app_r.
Qed.

Lemma call_last func (h : list (list R)) v e :
  call func (length h) (Store (h ++ [v]) e)
  = (Return (func v), Store (h ++ [v]) (e ++ [v])).
Proof. by erewrite call_run by by apply list_lookup_middle. Qed.

Lemma getitem_old (h : list (list R)) v e a xs i r :
  h !! a = Some xs → xs !! i = Some r →
  getitem a i (Store (h ++ [v]) e) = (Return r, Store (h ++ [v]) e).
Proof. intros Ha Hi. eapply getitem_run; [|done]. by apply lookup_app_l_Some. Qed.

Lemma call_old func (h : list (list R)) v e a xs :
  h !! a = Some xs →
  call func a (Store (h ++ [v]) e)
  = (Return (func xs), Store (h ++ [v]) (e ++ [xs])).
Proof. intros Ha. erewrite call_run; [done|]. by apply lookup_app_l_Some. Qed.

Lemma insert_alter (f : R → R) xs i r :
  xs !! i = Some r → <[i := f r]> xs = alter f i xs.
Proof.
  intros Hi. apply list_eq. intros k. destruct (decide (i = k)) as [->|].
  - rewrite list_lookup_insert_eq by by eapply lookup_lt_Some.
    by rewrite list_lookup_alter_eq, Hi.
  - by rewrite list_lookup_insert_ne, list_lookup_alter_ne.
Qed.

Lemma insert_plus xs i xi h :
  xs !! i = Some xi → <[i := (xi + h)%sc]> xs = plus_at i h xs.
Proof. apply (insert_alter (λ xi, (xi + h)%sc)). Qed.

Lemma insert_minus xs i xi h :
  xs !! i = Some xi → <[i := (xi - h)%sc]> xs = minus_at i h xs.
Proof. apply (insert_alter (λ xi, (xi - h)%sc)). Qed.

Lemma lookup_plus_at_ne xs i j h : i ≠ j → plus_at i h xs !! j = xs !! j.
Proof. apply list_lookup_alter_ne. Qed.

Lemma lookup_minus_at_ne xs i j h : i ≠ j → minus_at i h xs !! j = xs !! j.
Proof. apply list_lookup_alter_ne. Qed.

(** ** The two stencil functions *)

Lemma calc_partial_ii_run func σ xin xs i h :
  heap σ !! xin = Some xs → i < length xs →
  calc_partial_ii func xin i h σ
  = (Return (stencil_ii func xs i h),
     Store (heap σ ++ [minus_at i h xs]) (evals σ ++ points_ii xs i h)).
Proof.
  intros Hx Hi. destruct (lookup_lt_is_Some_2 xs i Hi) as [xi Hxi].
  destruct σ as [hp ev]; cbn in Hx. unfold calc_partial_ii.
  erewrite bind_run by by apply copy_run. cbn.
  erewrite bind_run by by eapply getitem_old.
  erewrite bind_run by by apply setitem_last.
  erewrite bind_run by apply call_last.
  erewrite bind_run by by eapply call_old.
  erewrite bind_run by by eapply getitem_old.
  erewrite bind_run by by apply setitem_last; rewrite length_insert.
  erewrite bind_run by apply call_last.
  rewrite list_insert_insert_eq.
  rewrite (insert_plus _ _ _ _ Hxi), (insert_minus _ _ _ _ Hxi).
  unfold ret, stencil_ii, points_ii.
  by rewrite <- !(assoc_L (++)).
Qed.

Lemma calc_partial_ij_run func σ xin xs i j h k :
  heap σ !! xin = Some xs → i < length xs → j < length xs → i ≠ j →
  calc_partial_ij func xin i j h k σ
  = (Return (stencil_ij func xs i j h k),
     Store (heap σ ++ [minus_at j k (minus_at i h xs)])
           (evals σ ++ points_ij xs i j h k)).
Proof.
  intros Hx Hi Hj Hij.
  destruct (lookup_lt_is_Some_2 xs i Hi) as [xi Hxi].
  destruct (lookup_lt_is_Some_2 xs j Hj) as [xj Hxj].
  destruct σ as [hp ev]; cbn in Hx. unfold calc_partial_ij.
  erewrite bind_run by by apply copy_run. cbn.
  erewrite bind_run by by eapply getitem_old.
  erewrite bind_run by by apply setitem_last.
  erewrite bind_run by by eapply getitem_old.
  erewrite bind_run by by apply setitem_last; rewrite !length_insert.
  erewrite bind_run by apply call_last.
  erewrite bind_run by by eapply getitem_old.
  erewrite bind_run by by apply setitem_last; rewrite !length_insert.
  erewrite bind_run by apply call_last.
  erewrite bind_run by by eapply getitem_old.
  erewrite bind_run by by apply setitem_last; rewrite !length_insert.
  erewrite bind_run by by eapply getitem_old.
  erewrite bind_run by by apply setitem_last; rewrite !length_insert.
  erewrite bind_run by apply call_last.
  erewrite bind_run by by eapply getitem_old.
  erewrite bind_run by by apply setitem_last; rewrite !length_insert.
  erewrite bind_run by apply call_last.
  rewrite !list_insert_insert_eq.
  rewrite (list_insert_insert_ne _ i j) by done.
  rewrite !list_insert_insert_eq.
  rewrite (insert_plus _ _ _ _ Hxi), (insert_minus _ _ _ _ Hxi).
  rewrite !(insert_plus (plus_at i h xs) j xj), !(insert_minus (plus_at i h xs) j xj)
    by by rewrite lookup_plus_at_ne.
  rewrite !(insert_plus (minus_at i h xs) j xj), !(insert_minus (minus_at i h xs) j xj)
    by by rewrite lookup_minus_at_ne.
  unfold ret, stencil_ij, points_ij.
  by rewrite <- !(assoc_L (++)).
Qed.

(** ** Loops *)

Lemma for_run {T} (Inv : nat → T → store R → Prop) l (body : nat → T → M R T) s σ :
  Inv 0 s σ →
  (∀ k i s σ, l !! k = Some i → Inv k s σ →
     ∃ s' σ', body i s σ = (Return s', σ') ∧ Inv (S k) s' σ') →
  ∃ s' σ', for_ l body s σ = (Return s', σ') ∧ Inv (length l) s' σ'.
Proof.
  revert Inv s σ. induction l as [|i l IH]; intros Inv s σ H0 Hstep.
  - by eexists _, _.
  - destruct (Hstep 0 i s σ eq_refl H0) as (s1 & σ1 & Hb & H1).
    cbn. erewrite bind_run by done.
    apply (IH (λ k, Inv (S k))); [done|].
    intros k j s2 σ2 Hk. by apply (Hstep (S k)).
Qed.

Lemma lookup_range lo hi k i :
  range lo hi !! k = Some i ↔ i = lo + k ∧ i < hi.
Proof. unfold range. rewrite lookup_seq. lia. Qed.

Lemma length_range lo hi : length (range lo hi) = hi - lo.
Proof. apply length_seq. Qed.

Lemma range_cons lo hi : lo < hi → range lo hi = lo :: range (S lo) hi.
Proof.
  intros Hlt. unfold range.
  by replace (hi - lo) with (S (hi - S lo)) by lia.
Qed.

(** ** The local matrix *)

Lemma shape_zeros2 n : shape n (zeros2 n n).
Proof.
  split; [apply length_replicate|].
  intros row Hrow. apply elem_of_replicate_inv in Hrow as ->.
  apply length_replicate.
Qed.

Lemma shape_row n m i row : shape n m → m !! i = Some row → length row = n.
Proof. intros [_ Hrows] Hi. apply Hrows. by eapply list_elem_of_lookup_2. Qed.

Lemma entry_is_Some n m i j : shape n m → i < n → j < n → is_Some (entry m i j).
Proof.
  intros Hm Hi Hj. unfold entry.
  destruct (lookup_lt_is_Some_2 m i) as [row Hrow]; [by rewrite (proj1 Hm)|].
  rewrite Hrow. cbn. apply lookup_lt_is_Some_2.
  by rewrite (shape_row _ _ _ _ Hm Hrow).
Qed.

Lemma setitem2_run n m i j r σ :
  shape n m → i < n → j < n →
  ∃ m', setitem2 m i j r σ = (Return m', σ) ∧ shape n m'
        ∧ entry m' i j = Some r
        ∧ ∀ a b, (a ≠ i ∨ b ≠ j) → entry m' a b = entry m a b.
Proof.
  intros Hm Hi Hj.
  destruct (lookup_lt_is_Some_2 m i) as [row Hrow]; [by rewrite (proj1 Hm)|].
  pose proof (shape_row _ _ _ _ Hm Hrow) as Hlen.
  exists (<[i := <[j := r]> row]> m). unfold setitem2. rewrite Hrow.
  rewrite decide_True by lia. repeat split.
  - rewrite length_insert. apply Hm.
  - intros row' Hin. apply list_elem_of_lookup in Hin as [a Ha].
    destruct (decide (i = a)) as [->|].
    + rewrite list_lookup_insert_eq in Ha by by rewrite (proj1 Hm).
      injection Ha as <-. by rewrite length_insert.
    + rewrite list_lookup_insert_ne in Ha by done.
      by eapply shape_row.
  - unfold entry. rewrite list_lookup_insert_eq by by rewrite (proj1 Hm).
    cbn. apply list_lookup_insert_eq. lia.
  - intros a b Hab. unfold entry. destruct (decide (i = a)) as [->|].
    + rewrite list_lookup_insert_eq by by rewrite (proj1 Hm).
      rewrite Hrow. cbn. apply list_lookup_insert_ne. destruct Hab; congruence.
    + by rewrite list_lookup_insert_ne.
Qed.

Lemma getitem2_run m i j r σ :
  entry m i j = Some r → getitem2 m i j σ = (Return r, σ).
Proof.
  unfold entry, getitem2. destruct (m !! i) as [row|]; [cbn|done].
  by intros ->.
Qed.

Lemma matrix_ext n m m' :
  shape n m → shape n m' →
  (∀ a b, a < n → b < n → entry m a b = entry m' a b) → m = m'.
Proof.
  intros Hm Hm' Heq. apply list_eq. intros a.
  destruct (decide (a < n)) as [Ha|Ha].
  - destruct (lookup_lt_is_Some_2 m a) as [row Hrow]; [by rewrite (proj1 Hm)|].
    destruct (lookup_lt_is_Some_2 m' a) as [row' Hrow']; [by rewrite (proj1 Hm')|].
    rewrite Hrow, Hrow'. f_equal. apply list_eq. intros b.
    destruct (decide (b < n)) as [Hb|Hb].
    + specialize (Heq a b Ha Hb). unfold entry in Heq.
      by rewrite Hrow, Hrow' in Heq.
    + rewrite !lookup_ge_None_2; [done| |].
      * rewrite (shape_row _ _ _ _ Hm' Hrow'). lia.
      * rewrite (shape_row _ _ _ _ Hm Hrow). lia.
  - rewrite !lookup_ge_None_2; [done| |].
    + rewrite (proj1 Hm'). lia.
    + rewrite (proj1 Hm). lia.
Qed.

Lemma shape_hessian func xs hs : shape (length xs) (hessian func xs hs).
Proof.
  unfold hessian. split.
  - by rewrite length_map, length_seq.
  - intros row Hrow. apply list_elem_of_fmap in Hrow as (i & -> & _).
    by rewrite length_map, length_seq.
Qed.

Lemma entry_hessian func xs hs i j :
  i < length xs → j < length xs →
  entry (hessian func xs hs) i j = Some (hess_entry func xs hs i j).
Proof.
  intros Hi Hj. unfold entry, hessian.
  rewrite list_lookup_fmap, lookup_seq_lt by done. cbn.
  by rewrite list_lookup_fmap, lookup_seq_lt.
Qed.

(** ** The input normaliser *)

Lemma array_run σ (arg : pyarg R) xs :
  contents σ arg = Some xs →
  ∃ l σ1, array arg σ = (Return l, σ1) ∧ heap σ `prefix_of` heap σ1
          ∧ heap σ1 !! l = Some xs ∧ evals σ1 = evals σ.
Proof.
  destruct arg as [r|l|a]; cbn; intros Hv.
  - injection Hv as <-. eexists _, _. split; [done|]. cbn.
    split_and!; [by apply prefix_app_r|apply list_lookup_middle; done|done].
  - injection Hv as <-. eexists _, _. split; [done|]. cbn.
    split_and!; [by apply prefix_app_r|apply list_lookup_middle; done|done].
  - exists a, σ. by erewrite bind_run by by apply deref_run.
Qed.

Lemma length_add_scalar v s : length (add_scalar v s) = length v.
Proof. apply length_map. Qed.

Lemma length_zeros n : length (zeros n) = n.
Proof. apply length_replicate. Qed.

Lemma get_x_and_h_run σ x h xs hs :
  contents σ x = Some xs → step_sizes σ (length xs) h = Some hs →
  length hs = length xs →
  ∃ lx lh σ1, _get_x_and_h x h σ = (Return (lx, lh), σ1)
    ∧ heap σ `prefix_of` heap σ1 ∧ evals σ1 = evals σ
    ∧ heap σ1 !! lx = Some xs ∧ heap σ1 !! lh = Some hs.
Proof.
  intros Hx Hh Hlen.
  destruct (array_run _ _ _ Hx) as (lx & σx & Hax & Hpre & Hlx & Hev).
  unfold _get_x_and_h. erewrite bind_run by done.
  erewrite bind_run by by apply size_run.
  assert (Hh' : match h with
                | PyScalar s => hs = add_scalar (zeros (length xs)) s
                | _ => contents σx h = Some hs
                end).
  { destruct h as [s|l|b]; cbn in Hh |- *; [congruence|done|].
    by eapply prefix_lookup_Some. }
  destruct h as [s|l|b].
  - subst hs. exists lx, (length (heap σx)). eexists. split; [done|]. cbn.
    split_and!; [by apply prefix_app_r|done| |by apply list_lookup_middle].
    by apply lookup_app_l_Some.
  - destruct (array_run _ _ _ Hh') as (lh & σh & Hah & Hpre' & Hlh & Hev').
    erewrite bind_run by done.
    erewrite bind_run by by apply size_run.
    erewrite bind_run by (apply size_run; by eapply prefix_lookup_Some).
    rewrite decide_False by (intros Hne; by apply Hne).
    exists lx, lh, σh. split_and!; [done|by etrans|congruence| |done].
    by eapply prefix_lookup_Some.
  - destruct (array_run _ _ _ Hh') as (lh & σh & Hah & Hpre' & Hlh & Hev').
    erewrite bind_run by done.
    erewrite bind_run by by apply size_run.
    erewrite bind_run by (apply size_run; by eapply prefix_lookup_Some).
    rewrite decide_False by (intros Hne; by apply Hne).
    exists lx, lh, σh. split_and!; [done|by etrans|congruence| |done].
    by eapply prefix_lookup_Some.
Qed.

Lemma get_x_and_h_mismatch σ x h xs hs :
  contents σ x = Some xs → isscalar h = false → contents σ h = Some hs →
  length hs ≠ length xs →
  ∃ σ1, _get_x_and_h x h σ
        = (Raise (ValueError (dimension_message (length hs) (length xs))), σ1)
    ∧ heap σ `prefix_of` heap σ1 ∧ evals σ1 = evals σ.
Proof.
  intros Hx Hsc Hh Hlen.
  destruct (array_run _ _ _ Hx) as (lx & σx & Hax & Hpre & Hlx & Hev).
  unfold _get_x_and_h. erewrite bind_run by done.
  erewrite bind_run by by apply size_run.
  assert (Hh' : contents σx h = Some hs).
  { destruct h as [s|l|b]; cbn in Hh |- *; [done|done|].
    by eapply prefix_lookup_Some. }
  destruct (array_run _ _ _ Hh') as (lh & σh & Hah & Hpre' & Hlh & Hev').
  destruct h as [s|l|b]; [done| |].
  - erewrite bind_run by done.
    erewrite bind_run by by apply size_run.
    erewrite bind_run by (apply size_run; by eapply prefix_lookup_Some).
    rewrite decide_True by done.
    exists σh. split_and!; [done|by etrans|congruence].
  - erewrite bind_run by done.
    erewrite bind_run by by apply size_run.
    erewrite bind_run by (apply size_run; by eapply prefix_lookup_Some).
    rewrite decide_True by done.
    exists σh. split_and!; [done|by etrans|congruence].
Qed.

(** ** The loops of [calc_hess] *)

Lemma filled_weaken func xs hs (P Q : nat → nat → Prop) m :
  (∀ a b, a < length xs → b < length xs → Q a b → P a b) →
  filled func xs hs P m → filled func xs hs Q m.
Proof. intros HQP [Hm HP]. split; [done|]. intros a b ???. apply HP; auto. Qed.

Lemma step_lookup hs i hi : hs !! i = Some hi → step hs i = hi.
Proof. intros Hi. unfold step. by rewrite Hi. Qed.

Lemma hess_entry_diag func xs hs i :
  hess_entry func xs hs i i = stencil_ii func xs i (step hs i).
Proof. unfold hess_entry. by rewrite decide_True. Qed.

Lemma hess_entry_upper func xs hs i j :
  i < j →
  hess_entry func xs hs i j = stencil_ij func xs i j (step hs i) (step hs j).
Proof.
  intros Hij. unfold hess_entry.
  rewrite decide_False by lia. by rewrite decide_True.
Qed.

Lemma hess_entry_lower func xs hs i j :
  i < j →
  hess_entry func xs hs j i = stencil_ij func xs i j (step hs i) (step hs j).
Proof.
  intros Hij. unfold hess_entry.
  rewrite decide_False by lia. by rewrite decide_False by lia.
Qed.

(** One pass through the body of the inner loop. *)
Lemma pair_run func σ lx lh xs hs m i j (P : nat → nat → Prop) :
  heap σ !! lx = Some xs → heap σ !! lh = Some hs → length hs = length xs →
  i ≤ j → j < length xs → filled func xs hs P m →
  ∃ m' σ',
    (if decide (i = j) then
       hi <- getitem lh i ;;
       d <- calc_partial_ii func lx i hi ;;
       setitem2 m i i d
     else
       hi <- getitem lh i ;;
       hj <- getitem lh j ;;
       d <- calc_partial_ij func lx i j hi hj ;;
       hess <- setitem2 m i j d ;;
       d' <- getitem2 hess i j ;;
       setitem2 hess j i d') σ = (Return m', σ')
    ∧ heap σ `prefix_of` heap σ'
    ∧ evals σ' = evals σ ++ pair_points xs hs i j
    ∧ filled func xs hs (λ a b, P a b ∨ (a = i ∧ b = j) ∨ (a = j ∧ b = i)) m'.
Proof.
  intros Hlx Hlh Hlen Hij Hj [Hm HP].
  destruct (lookup_lt_is_Some_2 hs i) as [hi Hhi]; [lia|].
  destruct (lookup_lt_is_Some_2 hs j) as [hj Hhj]; [lia|].
  unfold pair_points. destruct (decide (i = j)) as [<-|Hne].
  - clear hj Hhj.
    erewrite bind_run by by eapply getitem_run.
    erewrite bind_run by (apply calc_partial_ii_run; [done|lia]).
    edestruct (setitem2_run (length xs) m i i) as (m' & Hset & Hm' & Hii & Hoth);
      [done|lia|lia|].
    exists m'. eexists. split; [apply Hset|]. cbn.
    rewrite (step_lookup _ _ _ Hhi).
    split_and!; [by apply prefix_app_r|done|].
    split; [done|].
    intros a b Ha Hb [HPab|[[-> ->]|[-> ->]]].
    + destruct (decide (a = i ∧ b = i)) as [[-> ->]|Hni].
      * by rewrite Hii, hess_entry_diag, (step_lookup _ _ _ Hhi).
      * rewrite Hoth by (destruct (decide (a = i)); [right|left]; naive_solver).
        by apply HP.
    + by rewrite Hii, hess_entry_diag, (step_lookup _ _ _ Hhi).
    + by rewrite Hii, hess_entry_diag, (step_lookup _ _ _ Hhi).
  - erewrite bind_run by by eapply getitem_run.
    erewrite bind_run by by eapply getitem_run.
    erewrite bind_run by (apply calc_partial_ij_run; [done|lia|lia|done]).
    edestruct (setitem2_run (length xs) m i j) as (m1 & Hset1 & Hm1 & Hij1 & Hoth1);
      [done|lia|lia|].
    erewrite bind_run by apply Hset1.
    erewrite bind_run by by apply getitem2_run.
    edestruct (setitem2_run (length xs) m1 j i) as (m2 & Hset2 & Hm2 & Hji2 & Hoth2);
      [done|lia|lia|].
    exists m2. eexists. split; [apply Hset2|]. cbn.
    rewrite (step_lookup _ _ _ Hhi), (step_lookup _ _ _ Hhj).
    split_and!; [by apply prefix_app_r|done|].
    split; [done|].
    assert (Hup : entry m2 i j = Some (hess_entry func xs hs i j)).
    { rewrite Hoth2 by (left; lia).
      by rewrite Hij1, hess_entry_upper, (step_lookup _ _ _ Hhi),
        (step_lookup _ _ _ Hhj) by lia. }
    assert (Hlo : entry m2 j i = Some (hess_entry func xs hs j i)).
    { by rewrite Hji2, hess_entry_lower, (step_lookup _ _ _ Hhi),
        (step_lookup _ _ _ Hhj) by lia. }
    intros a b Ha Hb [HPab|[[-> ->]|[-> ->]]]; [|done|done].
    destruct (decide (a = i ∧ b = j)) as [[-> ->]|Hn1]; [done|].
    destruct (decide (a = j ∧ b = i)) as [[-> ->]|Hn2]; [done|].
    rewrite Hoth2 by (destruct (decide (a = j)); [right|left]; naive_solver).
    rewrite Hoth1 by (destruct (decide (a = i)); [right|left]; naive_solver).
    by apply HP.
Qed.

Lemma pair_points_off xs hs i lo c :
  i < lo →
  flat_map (pair_points xs hs i) (seq lo c)
  = flat_map (λ j, points_ij xs i j (step hs i) (step hs j)) (seq lo c).
Proof.
  revert lo. induction c as [|c IH]; intros lo Hlo; [done|]. cbn [seq flat_map].
  unfold pair_points at 1. rewrite decide_False by lia.
  f_equal. apply IH. lia.
Qed.

Lemma pair_points_row xs hs i :
  i < length xs →
  flat_map (pair_points xs hs i) (range i (length xs)) = row_points xs hs i.
Proof.
  intros Hi. rewrite range_cons by done. cbn [flat_map].
  unfold pair_points at 1. rewrite decide_True by done.
  unfold row_points, range. by rewrite pair_points_off by lia.
Qed.

(** One row: the inner loop, from the diagonal to the last column. *)
Lemma row_run func σ lx lh xs hs m i :
  heap σ !! lx = Some xs → heap σ !! lh = Some hs → length hs = length xs →
  i < length xs → filled func xs hs (λ a b, a `min` b < i) m →
  ∃ m' σ',
    for_ (range i (length xs)) (λ j hess,
      if decide (i = j) then
        hi <- getitem lh i ;;
        d <- calc_partial_ii func lx i hi ;;
        setitem2 hess i i d
      else
        hi <- getitem lh i ;;
        hj <- getitem lh j ;;
        d <- calc_partial_ij func lx i j hi hj ;;
        hess <- setitem2 hess i j d ;;
        d' <- getitem2 hess i j ;;
        setitem2 hess j i d') m σ = (Return m', σ')
    ∧ heap σ `prefix_of` heap σ'
    ∧ evals σ' = evals σ ++ row_points xs hs i
    ∧ filled func xs hs (λ a b, a `min` b < S i) m'.
Proof.
  intros Hlx Hlh Hlen Hi Hm.
  edestruct (for_run (λ k m' σ',
      heap σ `prefix_of` heap σ'
      ∧ evals σ' = evals σ
          ++ flat_map (pair_points xs hs i) (take k (range i (length xs)))
      ∧ filled func xs hs
          (λ a b, a `min` b < i ∨ (a `min` b = i ∧ a `max` b < i + k)) m'))
    as (m' & σ' & Hrun & Hpre & Hev & Hm'); last first.
  - exists m', σ'. split; [apply Hrun|]. split; [done|]. split.
    + rewrite Hev, take_ge by done. by rewrite pair_points_row.
    + eapply filled_weaken; [|done]. intros a b Ha Hb.
      rewrite length_range. cbn. lia.
  - intros k j m1 σ1 Hk (Hpre & Hev & Hm1). cbn beta.
    apply lookup_range in Hk as [-> Hj].
    edestruct (pair_run func σ1 lx lh xs hs m1 i (i + k))
      as (m2 & σ2 & Hrun & Hpre2 & Hev2 & Hm2);
      [by eapply prefix_lookup_Some|by eapply prefix_lookup_Some
      |done|lia|done|done|].
    exists m2, σ2. split; [done|]. split; [by etrans|]. split.
    + rewrite Hev2, Hev.
      rewrite (take_S_r _ _ (i + k)) by (apply lookup_range; lia).
      rewrite flat_map_app. cbn. by rewrite app_nil_r, (assoc_L (++)).
    + eapply filled_weaken; [|done]. intros a b Ha Hb. cbn. lia.
  - split; [done|]. split; [by rewrite app_nil_r|].
    eapply filled_weaken; [|done]. intros a b Ha Hb. cbn. lia.
Qed.

(** The whole of [calc_hess], once the arguments are normalised. *)
Lemma rows_run func σ lx lh xs hs :
  heap σ !! lx = Some xs → heap σ !! lh = Some hs → length hs = length xs →
  ∃ σ',
    for_ (range 0 (length xs)) (λ i hess,
      for_ (range i (length xs)) (λ j hess,
        if decide (i = j) then
          hi <- getitem lh i ;;
          d <- calc_partial_ii func lx i hi ;;
          setitem2 hess i i d
        else
          hi <- getitem lh i ;;
          hj <- getitem lh j ;;
          d <- calc_partial_ij func lx i j hi hj ;;
          hess <- setitem2 hess i j d ;;
          d' <- getitem2 hess i j ;;
          setitem2 hess j i d') hess)
      (zeros2 (length xs) (length xs)) σ
    = (Return (hessian func xs hs), σ')
    ∧ heap σ `prefix_of` heap σ'
    ∧ evals σ' = evals σ ++ hess_points xs hs.
Proof.
  intros Hlx Hlh Hlen.
  edestruct (for_run (λ k m' σ',
      heap σ `prefix_of` heap σ'
      ∧ evals σ' = evals σ
          ++ flat_map (row_points xs hs) (take k (range 0 (length xs)))
      ∧ filled func xs hs (λ a b, a `min` b < k) m'))
    as (m' & σ' & Hrun & Hpre & Hev & Hm'); last first.
  - exists σ'. rewrite Hrun. split; [|split; [done|]].
    + f_equal. f_equal. destruct Hm' as [Hsh Hent].
      apply (matrix_ext (length xs)); [done|apply shape_hessian|].
      intros a b Ha Hb. rewrite entry_hessian by done.
      apply Hent; [done|done|]. rewrite length_range. lia.
    + by rewrite Hev, take_ge.
  - intros k i m1 σ1 Hk (Hpre & Hev & Hm1). cbn beta.
    apply lookup_range in Hk as [-> Hi]. cbn in Hi |- *.
    edestruct (row_run func σ1 lx lh xs hs m1 k)
      as (m2 & σ2 & Hrun & Hpre2 & Hev2 & Hm2);
      [by eapply prefix_lookup_Some|by eapply prefix_lookup_Some
      |done|done|done|].
    exists m2, σ2. split; [done|]. split; [by etrans|]. split; [|done].
    rewrite Hev2, Hev.
    rewrite (take_S_r _ _ k) by (apply lookup_range; lia).
    rewrite flat_map_app. cbn. by rewrite app_nil_r, (assoc_L (++)).
  - split; [done|]. split; [by rewrite app_nil_r|].
    split; [apply shape_zeros2|]. intros a b _ _ Hab. lia.
Qed.

(** [calc_hess] on arguments of matching dimensions returns the Hessian of
    the documentation; it changes no array that existed before the call,
    and evaluates the objective function at [hess_points], in that order. *)
Lemma calc_hess_run func σ x h xs hs :
  contents σ x = Some xs → step_sizes σ (length xs) h = Some hs →
  length hs = length xs →
  ∃ σ', calc_hess func x h σ = (Return (hessian func xs hs), σ')
    ∧ heap σ `prefix_of` heap σ'
    ∧ evals σ' = evals σ ++ hess_points xs hs.
Proof.
  intros Hx Hh Hlen.
  destruct (get_x_and_h_run _ _ _ _ _ Hx Hh Hlen)
    as (lx & lh & σ1 & Hrun & Hpre & Hev & Hlx & Hlh).
  unfold calc_hess. erewrite bind_run by done. cbn beta iota.
  erewrite bind_run by by apply size_run. cbn zeta.
  destruct (rows_run func σ1 lx lh xs hs Hlx Hlh Hlen) as (σ' & Hrows & Hpre' & Hev').
  exists σ'. split; [done|]. split; [by etrans|]. by rewrite Hev', Hev.
Qed.

(** [calc_hess] on a sequence of steps of the wrong length. *)
Lemma calc_hess_mismatch func σ x h xs hs :
  contents σ x = Some xs → isscalar h = false → contents σ h = Some hs →
  length hs ≠ length xs →
  ∃ σ', calc_hess func x h σ
        = (Raise (ValueError (dimension_message (length hs) (length xs))), σ')
    ∧ heap σ `prefix_of` heap σ' ∧ evals σ' = evals σ.
Proof.
  intros Hx Hsc Hh Hlen.
  destruct (get_x_and_h_mismatch _ _ _ _ _ Hx Hsc Hh Hlen)
    as (σ1 & Hrun & Hpre & Hev).
  exists σ1. unfold calc_hess. by erewrite bind_raise by done.
Qed.

End Runs.

(** * The properties of the program *)

Section Properties.
Context {R : Type} `{Scalar R}.
Implicit Types (σ : store R) (xs hs : list R) (x h : pyarg R).

Lemma hess_entry_sym func xs hs i j :
  hess_entry func xs hs i j = hess_entry func xs hs j i.
Proof.
  destruct (lt_eq_lt_dec i j) as [[Hlt| ->]|Hgt]; [|done|].
  - by rewrite hess_entry_upper, hess_entry_lower.
  - by rewrite hess_entry_lower, hess_entry_upper.
Qed.

Lemma entry_None_l n (m : list (list R)) i j : shape n m → n ≤ i → entry m i j = None.
Proof.
  intros [Hlen _] Hi. unfold entry. rewrite lookup_ge_None_2; [done|lia].
Qed.

Lemma entry_None_r n (m : list (list R)) i j : shape n m → n ≤ j → entry m i j = None.
Proof.
  intros Hm Hj. unfold entry. destruct (m !! i) as [row|] eqn:Hrow; [cbn|done].
  apply lookup_ge_None_2. rewrite (shape_row _ _ _ _ Hm Hrow). lia.
Qed.



(** C1. When [calc_hess] returns a matrix that [linalg.inv] inverts,
    [calc_cov] returns that inverse negated entry by entry: the covariance
    is exactly [-H^{-1}]. *)
Theorem calc_cov_negated_inverse `{Linalg R} func x h σ hess inv σ' :
  calc_hess func x h σ = (Return hess, σ') →
  linalg_inv hess = Some inv →
  calc_cov func x h σ = (Return (mneg inv), σ')
  ∧ ∀ i j, entry (mneg inv) i j = s_neg <$> entry inv i j.
Proof.
  intros Hhess Hinv. split.
  - unfold calc_cov. erewrite bind_run by done. by rewrite Hinv.
  - intros i j. unfold entry, mneg. rewrite list_lookup_fmap.
    destruct (inv !! i) as [row|]; [cbn|done]. apply list_lookup_fmap.
Qed.

(** C2. On arguments of matching dimensions [calc_hess] returns an N×N
    matrix that is symmetric, entry for entry equal and not merely close:
    the objective function is evaluated for the pairs i <= j only, and the
    value stored at (i,j) is the one stored at (j,i). *)
Theorem calc_hess_symmetric func σ x h xs hs :
  contents σ x = Some xs → step_sizes σ (length xs) h = Some hs →
  length hs = length xs →
  ∃ hess σ', calc_hess func x h σ = (Return hess, σ')
    ∧ shape (length xs) hess
    ∧ (∀ i j, entry hess i j = entry hess j i)
    ∧ evals σ' = evals σ ++ hess_points xs hs.
Proof.
  intros Hx Hh Hlen.
  destruct (calc_hess_run func _ _ _ _ _ Hx Hh Hlen) as (σ' & Hrun & _ & Hev).
  exists (hessian func xs hs), σ'.
  split_and!; [done|apply shape_hessian| |done].
  intros i j. pose proof (shape_hessian func xs hs) as Hm.
  destruct (decide (i < length xs)) as [Hi|Hi];
    [|by rewrite (entry_None_l _ _ i j Hm), (entry_None_r _ _ j i Hm) by lia].
  destruct (decide (j < length xs)) as [Hj|Hj];
    [|by rewrite (entry_None_r _ _ i j Hm), (entry_None_l _ _ j i Hm) by lia].
  by rewrite !entry_hessian, hess_entry_sym.
Qed.

(** C3. Every diagonal entry of the matrix [calc_hess] returns is the
    three-point central second difference
    [(f(x + h_i e_i) - 2 f(x) + f(x - h_i e_i)) / h_i**2], the two outer
    points being [x] with coordinate [i] alone replaced. *)
Theorem calc_hess_diagonal func σ x h xs hs :
  contents σ x = Some xs → step_sizes σ (length xs) h = Some hs →
  length hs = length xs →
  ∃ hess σ', calc_hess func x h σ = (Return hess, σ')
    ∧ ∀ i xi hi, xs !! i = Some xi → hs !! i = Some hi →
        entry hess i i
        = Some ((func (<[i := xi + hi]> xs) - s_two * func xs
                 + func (<[i := xi - hi]> xs)) / s_sqr hi)%sc.
Proof.
  intros Hx Hh Hlen.
  destruct (calc_hess_run func _ _ _ _ _ Hx Hh Hlen) as (σ' & Hrun & _ & _).
  exists (hessian func xs hs), σ'. split; [done|].
  intros i xi hi Hxi Hhi. pose proof (lookup_lt_Some _ _ _ Hxi) as Hi.
  rewrite entry_hessian, hess_entry_diag, (step_lookup _ _ _ Hhi) by done.
  unfold stencil_ii.
  by rewrite (insert_plus _ _ _ _ Hxi), (insert_minus _ _ _ _ Hxi).
Qed.

(** C4. Every entry above the diagonal is the four-point mixed difference
    [(f(x+h_i,+h_j) - f(x+h_i,-h_j) - f(x-h_i,+h_j) + f(x-h_i,-h_j))
     / (4 h_i h_j)]: each of the four points is [x] with coordinates [i]
    and [j] replaced, and every other coordinate as in [x]. *)
Theorem calc_hess_off_diagonal func σ x h xs hs :
  contents σ x = Some xs → step_sizes σ (length xs) h = Some hs →
  length hs = length xs →
  ∃ hess σ', calc_hess func x h σ = (Return hess, σ')
    ∧ ∀ i j xi xj hi hj, i < j →
        xs !! i = Some xi → xs !! j = Some xj →
        hs !! i = Some hi → hs !! j = Some hj →
        entry hess i j
        = Some ((func (<[j := xj + hj]> (<[i := xi + hi]> xs))
                 - func (<[j := xj - hj]> (<[i := xi + hi]> xs))
                 - func (<[j := xj + hj]> (<[i := xi - hi]> xs))
                 + func (<[j := xj - hj]> (<[i := xi - hi]> xs)))
                / (s_four * hi * hj))%sc
        ∧ ∀ p, p ∈ points_ij xs i j hi hj →
            ∀ k, k ≠ i → k ≠ j → p !! k = xs !! k.
Proof.
  intros Hx Hh Hlen.
  destruct (calc_hess_run func _ _ _ _ _ Hx Hh Hlen) as (σ' & Hrun & _ & _).
  exists (hessian func xs hs), σ'. split; [done|].
  intros i j xi xj hi hj Hij Hxi Hxj Hhi Hhj.
  pose proof (lookup_lt_Some _ _ _ Hxi) as Hi.
  pose proof (lookup_lt_Some _ _ _ Hxj) as Hj.
  split.
  - rewrite entry_hessian, hess_entry_upper by done.
    rewrite (step_lookup _ _ _ Hhi), (step_lookup _ _ _ Hhj).
    unfold stencil_ij.
    rewrite (insert_plus _ _ _ _ Hxi), (insert_minus _ _ _ _ Hxi).
    rewrite !(insert_plus (plus_at i hi xs) j xj),
      !(insert_minus (plus_at i hi xs) j xj) by (rewrite lookup_plus_at_ne; [done|lia]).
    by rewrite !(insert_plus (minus_at i hi xs) j xj),
      !(insert_minus (minus_at i hi xs) j xj) by (rewrite lookup_minus_at_ne; [done|lia]).
  - intros p Hp k Hki Hkj. unfold points_ij in Hp.
    repeat (apply elem_of_cons in Hp as [->|Hp]);
      [..|by apply elem_of_nil in Hp];
      by repeat first [rewrite lookup_plus_at_ne by congruence
                      |rewrite lookup_minus_at_ne by congruence].
Qed.

(** C5. A sequence of steps whose length is not the dimension of the point
    makes [calc_hess] and [calc_cov] raise the [ValueError] whose message
    gives the two lengths, the steps' first; the objective function has not
    been evaluated when it is raised. *)
Theorem dimension_mismatch_raises `{Linalg R} func σ x h xs hs :
  contents σ x = Some xs → isscalar h = false → contents σ h = Some hs →
  length hs ≠ length xs →
  ∃ σ',
    calc_hess func x h σ
    = (Raise (ValueError ("h and x have different dimensions: "
                          +:+ pretty (length hs) +:+ " " +:+ pretty (length xs))), σ')
    ∧ calc_cov func x h σ = (Raise (ValueError (dimension_message (length hs) (length xs))), σ')
    ∧ evals σ' = evals σ.
Proof.
  intros Hx Hsc Hh Hlen.
  destruct (calc_hess_mismatch func _ _ _ _ _ Hx Hsc Hh Hlen) as (σ' & Hrun & _ & Hev).
  exists σ'. split_and!; [done| |done].
  unfold calc_cov. by erewrite bind_raise by done.
Qed.



Lemma add_scalar_zeros n s :
  (s_zero + s)%sc = s → add_scalar (zeros n) s = replicate n s.
Proof.
  intros Hs. unfold add_scalar, zeros.
  induction n as [|n IH]; [done|]. cbn. by rewrite Hs, IH.
Qed.

Lemma get_x_and_h_broadcast σ x xs s :
  contents σ x = Some xs → (s_zero + s)%sc = s →
  _get_x_and_h x (PyScalar s) σ
  = _get_x_and_h x (PySeq (replicate (length xs) s)) σ.
Proof.
  intros Hx Hs.
  destruct (array_run _ _ _ Hx) as (lx & σx & Hax & Hpre & Hlx & Hev).
  unfold _get_x_and_h. rewrite !(bind_run _ _ _ _ _ Hax).
  rewrite !(bind_run _ _ _ _ _ (size_run _ _ _ Hlx)).
  rewrite add_scalar_zeros by done.
  transitivity (Return (lx, length (heap σx)),
                Store (heap σx ++ [replicate (length xs) s]) (evals σx));
    [done|symmetry].
  cbn [array]. erewrite bind_run by (unfold alloc; reflexivity).
  erewrite bind_run by (apply size_run; cbn; by apply list_lookup_middle).
  erewrite bind_run by (apply size_run; cbn; by apply lookup_app_l_Some).
  rewrite length_replicate. by rewrite decide_False by (intros Hne; by apply Hne).
Qed.

(** C7, as the program has it.  A scalar step [s] is broadcast with
    [zeros(ndim) + s]: when [0 + s] is [s] (every number but the negative
    zero of IEEE arithmetic), [calc_hess] and [calc_cov] do with [s] exactly
    what they do with a sequence of N copies of [s]. *)
Theorem scalar_step_broadcast `{Linalg R} func σ x xs s :
  contents σ x = Some xs → (s_zero + s)%sc = s →
  calc_hess func x (PyScalar s) σ
  = calc_hess func x (PySeq (replicate (length xs) s)) σ
  ∧ calc_cov func x (PyScalar s) σ
    = calc_cov func x (PySeq (replicate (length xs) s)) σ.
Proof.
  intros Hx Hs.
  assert (Hhess : calc_hess func x (PyScalar s) σ
                  = calc_hess func x (PySeq (replicate (length xs) s)) σ).
  { unfold calc_hess, bind. by rewrite (get_x_and_h_broadcast _ _ _ _ Hx Hs). }
  split; [done|]. unfold calc_cov, bind. by rewrite Hhess.
Qed.

Lemma length_points_off xs i hi (hs : list R) lo c :
  length (flat_map (λ j, points_ij xs i j hi (step hs j)) (seq lo c)) = 4 * c.
Proof.
  revert lo. induction c as [|c IH]; intros lo; [done|].
  cbn [seq flat_map]. rewrite length_app, IH. cbn. lia.
Qed.

Lemma length_row_points xs hs i :
  length (row_points xs hs i) = 3 + 4 * (length xs - S i).
Proof.
  unfold row_points, range. by rewrite length_app, length_points_off.
Qed.

Lemma triangle_succ c : S c * (S c - 1) / 2 = c + c * (c - 1) / 2.
Proof.
  replace (S c * (S c - 1)) with (c * 2 + c * (c - 1)) by (destruct c; cbn; nia).
  by rewrite Nat.div_add_l.
Qed.

Lemma length_rows_points xs hs lo c :
  lo + c = length xs →
  length (flat_map (row_points xs hs) (seq lo c)) = 3 * c + 4 * (c * (c - 1) / 2).
Proof.
  revert lo. induction c as [|c IH]; intros lo Hlo; [done|].
  cbn [seq flat_map]. rewrite length_app, length_row_points, IH by lia.
  rewrite triangle_succ. replace (length xs - S lo) with c by lia. lia.
Qed.

Lemma length_hess_points xs hs :
  length (hess_points xs hs)
  = 3 * length xs + 4 * (length xs * (length xs - 1) / 2).
Proof.
  unfold hess_points, range. rewrite Nat.sub_0_r.
  by apply length_rows_points.
Qed.

(** C8. One call of [calc_hess] at dimension N evaluates the objective
    function exactly [3 N + 4 N (N-1)/2] times: row by row, three times for
    the diagonal entry (at [x + h_i e_i], at [x] itself, at [x - h_i e_i])
    and four times for each pair i < j. *)
Theorem calc_hess_evaluations func σ x h xs hs :
  contents σ x = Some xs → step_sizes σ (length xs) h = Some hs →
  length hs = length xs →
  ∃ hess σ' pts, calc_hess func x h σ = (Return hess, σ')
    ∧ evals σ' = evals σ ++ pts
    ∧ length pts = 3 * length xs + 4 * (length xs * (length xs - 1) / 2)
    ∧ pts = flat_map (λ i,
              [plus_at i (step hs i) xs; xs; minus_at i (step hs i) xs]
              ++ flat_map (λ j, points_ij xs i j (step hs i) (step hs j))
                   (range (S i) (length xs)))
              (range 0 (length xs)).
Proof.
  intros Hx Hh Hlen.
  destruct (calc_hess_run func _ _ _ _ _ Hx Hh Hlen) as (σ' & Hrun & _ & Hev).
  exists (hessian func xs hs), σ', (hess_points xs hs).
  split_and!; [done|done|apply length_hess_points|done].
Qed.


(** C10. The steps are never looked at before they are used: whatever their
    values, zero included, the normaliser passes them on and [calc_hess]
    returns a matrix, each entry being the stencil's numerator divided by
    [h_i**2] or by [4 h_i h_j] as they come.  Only the length of a sequence
    of steps can make the call raise. *)
Theorem step_values_unchecked func σ x h xs hs :
  contents σ x = Some xs → step_sizes σ (length xs) h = Some hs →
  length hs = length xs →
  (∃ lx lh σ1, _get_x_and_h x h σ = (Return (lx, lh), σ1)
     ∧ heap σ1 !! lh = Some hs)
  ∧ ∃ σ', calc_hess func x h σ = (Return (hessian func xs hs), σ')
    ∧ (∀ i, i < length xs →
         entry (hessian func xs hs) i i
         = Some ((func (plus_at i (step hs i) xs) - s_two * func xs
                  + func (minus_at i (step hs i) xs)) / s_sqr (step hs i))%sc)
    ∧ (∀ i j, i < j → j < length xs →
         entry (hessian func xs hs) i j
         = Some ((func (plus_at j (step hs j) (plus_at i (step hs i) xs))
                  - func (minus_at j (step hs j) (plus_at i (step hs i) xs))
                  - func (plus_at j (step hs j) (minus_at i (step hs i) xs))
                  + func (minus_at j (step hs j) (minus_at i (step hs i) xs)))
                 / (s_four * step hs i * step hs j))%sc).
Proof.
  intros Hx Hh Hlen. split.
  - destruct (get_x_and_h_run _ _ _ _ _ Hx Hh Hlen)
      as (lx & lh & σ1 & Hrun & _ & _ & _ & Hlh).
    by exists lx, lh, σ1.
  - destruct (calc_hess_run func _ _ _ _ _ Hx Hh Hlen) as (σ' & Hrun & _ & _).
    exists σ'. split_and!; [done| |].
    + intros i Hi. by rewrite entry_hessian, hess_entry_diag.
    + intros i j Hij Hj. by rewrite entry_hessian, hess_entry_upper by lia.
Qed.

(** A point given as a bare number is a point of dimension one: with a
    scalar step the result is the 1×1 matrix of the second difference. *)
Theorem scalar_point_second_difference func (a s : R) σ :
  ∃ σ', calc_hess func (PyScalar a) (PyScalar s) σ
        = (Return [[((func [a + (s_zero + s)] - s_two * func [a]
                      + func [a - (s_zero + s)]) / s_sqr (s_zero + s))%sc]], σ').
Proof.
  destruct (calc_hess_run func σ (PyScalar a) (PyScalar s) [a] [(s_zero + s)%sc]
              eq_refl eq_refl eq_refl) as (σ' & Hrun & _).
  exists σ'. exact Hrun.
Qed.

End Properties.

(** * The stencil functions on their own *)

Section Stencils.
Context {R : Type} `{Scalar R}.
Implicit Types (σ : store R) (xs hs : list R).

Notation "x <- m ;; k" := (bind m (λ x, k))
  (at level 100, m at next level, right associativity).

Lemma getitem_raise σ a xs i :
  heap σ !! a = Some xs → length xs ≤ i → getitem a i σ = (Raise IndexError, σ).
Proof.
  intros Ha Hi. unfold getitem. erewrite bind_run by by apply deref_run.
  by rewrite lookup_ge_None_2.
Qed.

(** An index past the end of the point makes [calc_partial_ii] raise
    [IndexError] at its first read [xin[i]]: the copy of [xin] has been
    made, the objective function has not been called. *)
Theorem calc_partial_ii_out_of_range func σ xin xs i h :
  heap σ !! xin = Some xs → length xs ≤ i →
  calc_partial_ii func xin i h σ
  = (Raise IndexError, Store (heap σ ++ [xs]) (evals σ)).
Proof.
  intros Hx Hi. unfold calc_partial_ii.
  erewrite bind_run by by apply copy_run.
  erewrite bind_raise; [done|].
  eapply getitem_raise; [|done]. cbn. by apply lookup_app_l_Some.
Qed.

(** [calc_partial_ij] with either index past the end raises [IndexError]
    before the objective function is called, and leaves the arrays that
    existed as they were. *)
Theorem calc_partial_ij_out_of_range func σ xin xs i j h k :
  heap σ !! xin = Some xs → length xs ≤ i ∨ length xs ≤ j →
  ∃ σ', calc_partial_ij func xin i j h k σ = (Raise IndexError, σ')
    ∧ heap σ `prefix_of` heap σ' ∧ evals σ' = evals σ.
Proof.
  intros Hx Hij. destruct σ as [hp ev]; cbn in Hx. unfold calc_partial_ij.
  erewrite bind_run by by apply copy_run. cbn.
  destruct (decide (i < length xs)) as [Hi|Hi].
  - destruct (lookup_lt_is_Some_2 xs i Hi) as [xi Hxi].
    assert (Hj : length xs ≤ j) by lia.
    erewrite bind_run by by eapply getitem_old.
    erewrite bind_run by by apply setitem_last.
    exists (Store (hp ++ [<[i := (xi + h)%sc]> xs]) ev).
    split; [|split; [by apply prefix_app_r|done]].
    apply bind_raise. eapply getitem_raise; [|done]. cbn.
    by apply lookup_app_l_Some.
  - exists (Store (hp ++ [xs]) ev).
    split; [|split; [by apply prefix_app_r|done]].
    apply bind_raise. eapply (getitem_raise _ _ xs); [|lia]. cbn.
    by apply lookup_app_l_Some.
Qed.

(** [calc_partial_ij] called with the same index twice does not compute a
    second derivative: the write of [x[j]] replaces the write of [x[i]],
    so the step [h] moves no point.  The function is evaluated at
    [x + k e_i] and [x - k e_i], twice each, and [h] appears in the divisor
    only. *)
Theorem calc_partial_ij_same_index func σ xin xs i xi h k :
  heap σ !! xin = Some xs → xs !! i = Some xi →
  calc_partial_ij func xin i i h k σ
  = (Return ((func (<[i := xi + k]> xs) - func (<[i := xi - k]> xs)
              - func (<[i := xi + k]> xs) + func (<[i := xi - k]> xs))
             / (s_four * h * k))%sc,
     Store (heap σ ++ [<[i := (xi - k)%sc]> xs])
           (evals σ ++ [<[i := (xi + k)%sc]> xs; <[i := (xi - k)%sc]> xs;
                        <[i := (xi + k)%sc]> xs; <[i := (xi - k)%sc]> xs])).
Proof.
  intros Hx Hxi. pose proof (lookup_lt_Some _ _ _ Hxi) as Hi.
  destruct σ as [hp ev]; cbn in Hx. unfold calc_partial_ij.
  erewrite bind_run by by apply copy_run. cbn.
  erewrite bind_run by by eapply getitem_old.
  erewrite bind_run by by apply setitem_last.
  erewrite bind_run by by eapply getitem_old.
  erewrite bind_run by by apply setitem_last; rewrite !length_insert.
  erewrite bind_run by apply call_last.
  erewrite bind_run by by eapply getitem_old.
  erewrite bind_run by by apply setitem_last; rewrite !length_insert.
  erewrite bind_run by apply call_last.
  erewrite bind_run by by eapply getitem_old.
  erewrite bind_run by by apply setitem_last; rewrite !length_insert.
  erewrite bind_run by by eapply getitem_old.
  erewrite bind_run by by apply setitem_last; rewrite !length_insert.
  erewrite bind_run by apply call_last.
  erewrite bind_run by by eapply getitem_old.
  erewrite bind_run by by apply setitem_last; rewrite !length_insert.
  erewrite bind_run by apply call_last.
  rewrite !list_insert_insert_eq. unfold ret.
  by rewrite <- !(assoc_L (++)).
Qed.



End Stencils.

(** * More on [calc_hess] and its normaliser *)

Section Further.
Context {R : Type} `{Scalar R}.
Implicit Types (σ : store R) (xs hs : list R).

Notation "x <- m ;; k" := (bind m (λ x, k))
  (at level 100, m at next level, right associativity).

(** On well-formed arguments the only exception [calc_hess] raises is the
    [ValueError] of the dimension check: no index is ever out of range in
    its loops or in the stencil functions.  [calc_cov] adds the error of
    the inversion, raised after [calc_hess] has returned. *)
Theorem raises_only_documented_errors `{Linalg R} func σ (x h : pyarg R) xs e σ' :
  contents σ x = Some xs → is_Some (step_sizes σ (length xs) h) →
  (calc_hess func x h σ = (Raise e, σ') →
     ∃ hs, contents σ h = Some hs ∧ isscalar h = false
       ∧ length hs ≠ length xs
       ∧ e = ValueError (dimension_message (length hs) (length xs)))
  ∧ (calc_cov func x h σ = (Raise e, σ') →
       (∃ hess, calc_hess func x h σ = (Return hess, σ')
          ∧ linalg_inv hess = None ∧ e = LinAlgError)
       ∨ (∃ hs, contents σ h = Some hs ∧ isscalar h = false
            ∧ length hs ≠ length xs
            ∧ e = ValueError (dimension_message (length hs) (length xs)))).
Proof.
  intros Hx [hs Hh].
  assert (Hhess : calc_hess func x h σ = (Raise e, σ') →
     ∃ hs, contents σ h = Some hs ∧ isscalar h = false
       ∧ length hs ≠ length xs
       ∧ e = ValueError (dimension_message (length hs) (length xs))).
  { intros Hraise. destruct (decide (length hs = length xs)) as [Hlen|Hlen].
    - destruct (calc_hess_run func _ _ _ _ _ Hx Hh Hlen) as (σ1 & Hrun & _).
      congruence.
    - destruct h as [s|l|b].
      + cbn in Hh. injection Hh as <-.
        by rewrite length_add_scalar, length_zeros in Hlen.
      + destruct (calc_hess_mismatch func _ _ (PySeq l) _ _ Hx eq_refl Hh Hlen)
          as (σ1 & Hrun & _).
        exists hs. split_and!; [done|done|done|congruence].
      + destruct (calc_hess_mismatch func _ _ (NdArray b) _ _ Hx eq_refl Hh Hlen)
          as (σ1 & Hrun & _).
        exists hs. split_and!; [done|done|done|congruence]. }
  split; [done|].
  unfold calc_cov, bind. destruct (calc_hess func x h σ) as [[hess|e1] σ1].
  - destruct (linalg_inv hess) eqn:Hinv; [done|].
    intros [= <- <-]. left. by exists hess.
  - intros [= <- <-]. right. by apply Hhess.
Qed.

Lemma elem_of_row_points xs hs i p :
  i < length xs → p ∈ row_points xs hs i → p ∈ hess_points xs hs.
Proof.
  intros Hi Hp. apply list_elem_of_In, in_flat_map.
  exists i. split; [|by apply list_elem_of_In].
  apply list_elem_of_In, list_elem_of_lookup. exists i.
  apply lookup_range. lia.
Qed.

Lemma elem_of_points_ii xs hs i p :
  i < length xs → p ∈ points_ii xs i (step hs i) → p ∈ hess_points xs hs.
Proof.
  intros Hi Hp. apply (elem_of_row_points _ _ i); [done|].
  unfold row_points. apply elem_of_app. by left.
Qed.

Lemma elem_of_points_ij xs hs i j p :
  i < j → j < length xs →
  p ∈ points_ij xs i j (step hs i) (step hs j) → p ∈ hess_points xs hs.
Proof.
  intros Hij Hj Hp. apply (elem_of_row_points _ _ i); [lia|].
  unfold row_points. apply elem_of_app. right.
  apply list_elem_of_In, in_flat_map. exists j.
  split; [|by apply list_elem_of_In].
  apply list_elem_of_In, list_elem_of_lookup. exists (j - S i).
  apply lookup_range. lia.
Qed.

Lemma hessian_ext func func' xs hs :
  (∀ p, p ∈ hess_points xs hs → func p = func' p) →
  hessian func xs hs = hessian func' xs hs.
Proof.
  intros Hext.
  apply (matrix_ext (length xs)); [apply shape_hessian..|].
  intros a b Ha Hb. rewrite !entry_hessian by done. f_equal.
  assert (Hii : ∀ i, i < length xs →
            stencil_ii func xs i (step hs i) = stencil_ii func' xs i (step hs i)).
  { intros i Hi. unfold stencil_ii.
    rewrite (Hext (plus_at i (step hs i) xs)), (Hext xs),
      (Hext (minus_at i (step hs i) xs)); [done|..];
      apply (elem_of_points_ii _ _ i); [done| |done| |done|];
      unfold points_ii;
      repeat first [apply list_elem_of_here|apply list_elem_of_further]. }
  assert (Hij : ∀ i j, i < j → j < length xs →
            stencil_ij func xs i j (step hs i) (step hs j)
            = stencil_ij func' xs i j (step hs i) (step hs j)).
  { intros i j Hlt Hj. unfold stencil_ij.
    rewrite (Hext (plus_at j (step hs j) (plus_at i (step hs i) xs))),
      (Hext (minus_at j (step hs j) (plus_at i (step hs i) xs))),
      (Hext (plus_at j (step hs j) (minus_at i (step hs i) xs))),
      (Hext (minus_at j (step hs j) (minus_at i (step hs i) xs))); [done|..];
      apply (elem_of_points_ij _ _ i j); [done|done| |done|done| |done|done| |done|done|];
      unfold points_ij;
      repeat first [apply list_elem_of_here|apply list_elem_of_further]. }
  unfold hess_entry. repeat case_decide; [by apply Hii|by apply Hij|].
  apply Hij; lia.
Qed.

(** [calc_hess] knows the objective function through its values at the
    stencil points only: two functions that agree on those points give the
    same matrix, and are evaluated at the same points. *)
Theorem calc_hess_reads_stencil_points func func' σ (x h : pyarg R) xs hs :
  contents σ x = Some xs → step_sizes σ (length xs) h = Some hs →
  length hs = length xs →
  (∀ p, p ∈ hess_points xs hs → func p = func' p) →
  (calc_hess func x h σ).1 = (calc_hess func' x h σ).1
  ∧ evals (calc_hess func x h σ).2 = evals (calc_hess func' x h σ).2.
Proof.
  intros Hx Hh Hlen Hext.
  destruct (calc_hess_run func _ _ _ _ _ Hx Hh Hlen) as (σ1 & -> & _ & Hev1).
  destruct (calc_hess_run func' _ _ _ _ _ Hx Hh Hlen) as (σ2 & -> & _ & Hev2).
  cbn. split; [|congruence]. f_equal. by apply hessian_ext.
Qed.

Lemma get_x_and_h_arrays σ a b xs hs :
  heap σ !! a = Some xs → heap σ !! b = Some hs → length hs = length xs →
  _get_x_and_h (NdArray a) (NdArray b) σ = (Return (a, b), σ).
Proof.
  intros Ha Hb Hlen. unfold _get_x_and_h. cbn [array].
  erewrite bind_run by (by erewrite bind_run by by apply deref_run).
  erewrite bind_run by by apply size_run.
  erewrite bind_run by (by erewrite bind_run by by apply deref_run).
  erewrite bind_run by by apply size_run.
  erewrite bind_run by by apply size_run.
  by rewrite decide_False by (intros Hne; by apply Hne).
Qed.

(** The normaliser is idempotent: given the arrays it returned, it returns
    them again, allocates nothing and leaves the store as it is. *)
Theorem get_x_and_h_idempotent σ (x h : pyarg R) lx lh σ1 :
  _get_x_and_h x h σ = (Return (lx, lh), σ1) →
  _get_x_and_h (NdArray lx) (NdArray lh) σ1 = (Return (lx, lh), σ1).
Proof.
  intros Hrun.
  assert (∃ xs hs, heap σ1 !! lx = Some xs ∧ heap σ1 !! lh = Some hs
                   ∧ length hs = length xs) as (xs & hs & Hlx & Hlh & Hlen).
  { revert Hrun. unfold _get_x_and_h, bind.
    destruct (array x σ) as [[ax|?] σx] eqn:Hax; [|done].
    assert (is_Some (heap σx !! ax)) as [xs Hxs].
    { destruct x; cbn in Hax; unfold alloc, bind, deref, ret in Hax.
      - injection Hax as <- <-. cbn. by rewrite list_lookup_middle.
      - injection Hax as <- <-. cbn. by rewrite list_lookup_middle.
      - destruct (heap σ !! a) eqn:Ha; [|done]. injection Hax as <- <-. eauto. }
    rewrite (size_run _ _ _ Hxs).
    destruct h as [s|l|b].
    - unfold alloc, ret. intros [= <- <- <-]. cbn.
      exists xs, (add_scalar (zeros (length xs)) s).
      split_and!; [by apply lookup_app_l_Some|by apply list_lookup_middle|].
      by rewrite length_add_scalar, length_zeros.
    - cbn [array]. unfold alloc at 1. cbn.
      erewrite size_run by by apply list_lookup_middle.
      erewrite size_run by (cbn; by apply lookup_app_l_Some).
      case_decide; [by unfold raise|]. unfold ret. intros [= <- <- <-]. cbn.
      exists xs, l.
      by split_and!; [apply lookup_app_l_Some|apply list_lookup_middle|].
    - cbn [array]. unfold bind, deref.
      destruct (heap σx !! b) as [hs|] eqn:Hb; [|done]. unfold ret at 1.
      rewrite (size_run _ _ _ Hb), (size_run _ _ _ Hxs).
      case_decide; [by unfold raise|]. unfold ret. intros [= <- <- <-].
      by exists xs, hs. }
  by eapply get_x_and_h_arrays.
Qed.

End Further.

(** * The stencils in exact arithmetic *)

Section Exact.
Implicit Types (σ : store Qc) (xs hs : list Qc) (func : list Qc → Qc).
Open Scope Qc_scope.

Lemma Qc_two : Q2Qc 2 = 1 + 1.
Proof. by apply Qc_is_canon. Qed.

Lemma Qc_four : Q2Qc 4 = 1 + 1 + 1 + 1.
Proof. by apply Qc_is_canon. Qed.

(** Central differences are exact on quadratics.  When the objective
    function is a polynomial of degree two along coordinate [i], in exact
    arithmetic and with a non-zero step, the diagonal entry [calc_hess]
    returns is its second derivative [2 a], whatever the step. *)
Theorem second_difference_exact func σ (x h : pyarg Qc) xs hs (i : nat) xi hi
    (a b c : Qc) :
  contents σ x = Some xs → step_sizes σ (length xs) h = Some hs →
  length hs = length xs →
  xs !! i = Some xi → hs !! i = Some hi → hi ≠ 0 →
  (∀ t, func (<[i := xi + t]> xs) = a * t * t + b * t + c) →
  ∃ hess σ', calc_hess func x h σ = (Return hess, σ')
    ∧ entry hess i i = Some ((1 + 1) * a).
Proof.
  intros Hx Hh Hlen Hxi Hhi Hnz Hquad.
  destruct (calc_hess_run func _ _ _ _ _ Hx Hh Hlen) as (σ' & Hrun & _ & _).
  exists (hessian func xs hs), σ'. split; [done|].
  pose proof (lookup_lt_Some _ _ _ Hxi) as Hi.
  rewrite entry_hessian, hess_entry_diag, (step_lookup _ _ _ Hhi) by done.
  unfold stencil_ii.
  rewrite <- (insert_plus _ _ _ _ Hxi), <- (insert_minus _ _ _ _ Hxi).
  f_equal. cbn [s_add s_sub s_mul s_div s_two s_sqr QcScalar].
  pose proof (Hquad 0) as H0.
  replace (xi + 0) with xi in H0 by ring.
  rewrite (list_insert_id xs i xi Hxi) in H0.
  replace (xi - hi) with (xi + - hi) by ring.
  rewrite !Hquad, H0, Qc_two. by field.
Qed.

(** The four-point stencil is exact on quadratics too.  When the objective
    function is a polynomial of degree two in coordinates [i] and [j], the
    entries (i,j) and (j,i) are the coefficient [d] of the product, its
    mixed second derivative: the squares and the linear terms cancel. *)
Theorem mixed_difference_exact func σ (x h : pyarg Qc) xs hs (i j : nat)
    xi xj hi hj (c a b d e g : Qc) :
  contents σ x = Some xs → step_sizes σ (length xs) h = Some hs →
  length hs = length xs → (i < j)%nat →
  xs !! i = Some xi → xs !! j = Some xj →
  hs !! i = Some hi → hs !! j = Some hj → hi ≠ 0 → hj ≠ 0 →
  (∀ s t, func (<[j := xj + t]> (<[i := xi + s]> xs))
          = c + a * s + b * t + d * s * t + e * s * s + g * t * t) →
  ∃ hess σ', calc_hess func x h σ = (Return hess, σ')
    ∧ entry hess i j = Some d ∧ entry hess j i = Some d.
Proof.
  intros Hx Hh Hlen Hij Hxi Hxj Hhi Hhj Hnzi Hnzj Hquad.
  destruct (calc_hess_run func _ _ _ _ _ Hx Hh Hlen) as (σ' & Hrun & _ & _).
  exists (hessian func xs hs), σ'. split; [done|].
  pose proof (lookup_lt_Some _ _ _ Hxi) as Hi.
  pose proof (lookup_lt_Some _ _ _ Hxj) as Hj.
  rewrite !entry_hessian by done.
  rewrite (hess_entry_upper _ _ _ i j), (hess_entry_lower _ _ _ i j) by done.
  rewrite (step_lookup _ _ _ Hhi), (step_lookup _ _ _ Hhj).
  assert (Hd : stencil_ij func xs i j hi hj = d); [|by rewrite Hd].
  unfold stencil_ij.
  rewrite <- (insert_plus xs i xi hi Hxi), <- (insert_minus xs i xi hi Hxi).
  rewrite <- !(insert_plus _ j xj hj), <- !(insert_minus _ j xj hj)
    by (rewrite list_lookup_insert_ne; [done|lia]).
  cbn [s_add s_sub s_mul s_div s_four QcScalar].
  replace (xi - hi) with (xi + - hi) by ring.
  replace (xj - hj) with (xj + - hj) by ring.
  rewrite !Hquad, Qc_four. by field.
Qed.

Lemma second_difference_exact_witness :
  ∃ hess σ',
    calc_hess qbowl (PySeq [1; 1 + 1]) (PyScalar 1) (Store [] []) = (Return hess, σ')
    ∧ entry hess 0 0 = Some ((1 + 1) * - (1)).
Proof.
  refine (second_difference_exact qbowl (Store [] []) (PySeq [1; 1 + 1]) (PyScalar 1)
            [1; 1 + 1] [0 + 1; 0 + 1] 0%nat 1 (0 + 1)
            (- (1)) (- (1 + 1 + 1 + 1)) (- (1 + 1 + 1 + 1 + 1 + 1 + 1))
            eq_refl eq_refl eq_refl eq_refl eq_refl _ _).
  - intros E. by apply (f_equal this) in E.
  - intros t. unfold qbowl. cbn. ring.
Defined.

Lemma mixed_difference_exact_witness :
  ∃ hess σ',
    calc_hess qbowl (PySeq [1; 1 + 1]) (PyScalar 1) (Store [] []) = (Return hess, σ')
    ∧ entry hess 0 1 = Some (- (1)) ∧ entry hess 1 0 = Some (- (1)).
Proof.
  refine (mixed_difference_exact qbowl (Store [] []) (PySeq [1; 1 + 1]) (PyScalar 1)
            [1; 1 + 1] [0 + 1; 0 + 1] 0%nat 1%nat 1 (1 + 1) (0 + 1) (0 + 1)
            (- (1 + 1 + 1 + 1 + 1 + 1 + 1)) (- (1 + 1 + 1 + 1))
            (- (1 + 1 + 1 + 1 + 1)) (- (1)) (- (1)) (- (1))
            eq_refl eq_refl eq_refl Nat.lt_0_1 eq_refl eq_refl eq_refl eq_refl _ _ _).
  - intros E. by apply (f_equal this) in E.
  - intros E. by apply (f_equal this) in E.
  - intros s t. unfold qbowl. cbn. ring.
Defined.

(** In exact arithmetic and with non-zero steps [calc_hess] is linear in
    the objective function: the matrix of [α f + β g] is [α] times the
    matrix of [f] plus [β] times the matrix of [g], entry by entry. *)
Theorem calc_hess_linear (f g : list Qc → Qc) (α β : Qc) σ (x h : pyarg Qc) xs hs :
  contents σ x = Some xs → step_sizes σ (length xs) h = Some hs →
  length hs = length xs → Forall (λ hi, hi ≠ 0) hs →
  ∃ Hf Hg Hc σf σg σc,
    calc_hess f x h σ = (Return Hf, σf)
    ∧ calc_hess g x h σ = (Return Hg, σg)
    ∧ calc_hess (λ v, α * f v + β * g v) x h σ = (Return Hc, σc)
    ∧ ∀ i j, (i < length xs)%nat → (j < length xs)%nat →
        ∃ ef eg, entry Hf i j = Some ef ∧ entry Hg i j = Some eg
                 ∧ entry Hc i j = Some (α * ef + β * eg).
Proof.
  intros Hx Hh Hlen Hnz.
  destruct (calc_hess_run f _ _ _ _ _ Hx Hh Hlen) as (σf & Hf & _ & _).
  destruct (calc_hess_run g _ _ _ _ _ Hx Hh Hlen) as (σg & Hg & _ & _).
  destruct (calc_hess_run (λ v, α * f v + β * g v) _ _ _ _ _ Hx Hh Hlen)
    as (σc & Hc & _ & _).
  exists (hessian f xs hs), (hessian g xs hs),
    (hessian (λ v, α * f v + β * g v) xs hs), σf, σg, σc.
  split; [exact Hf|]. split; [exact Hg|]. split; [exact Hc|].
  intros i j Hi Hj.
  exists (hess_entry f xs hs i j), (hess_entry g xs hs i j).
  rewrite !entry_hessian by done.
  split; [reflexivity|]. split; [reflexivity|]. f_equal.
  assert (Hstep : ∀ k, (k < length xs)%nat → step hs k ≠ 0).
  { intros k Hk. destruct (lookup_lt_is_Some_2 hs k) as [hk Hhk]; [lia|].
    rewrite (step_lookup _ _ _ Hhk). by eapply (Forall_lookup_1 _ _ _ _ Hnz). }
  pose proof (Hstep i Hi). pose proof (Hstep j Hj).
  unfold hess_entry. repeat case_decide; unfold stencil_ii, stencil_ij;
    cbn [s_add s_sub s_mul s_div s_two s_four s_sqr QcScalar];
    rewrite ?Qc_two, ?Qc_four; by field.
Qed.

Lemma calc_hess_linear_witness :
  ∃ Hf Hg Hc σf σg σc,
    calc_hess qbowl (PySeq [1; 1 + 1]) (PyScalar 1) (Store [] []) = (Return Hf, σf)
    ∧ calc_hess qbowl (PySeq [1; 1 + 1]) (PyScalar 1) (Store [] []) = (Return Hg, σg)
    ∧ calc_hess (λ v, (1 + 1) * qbowl v + 1 * qbowl v)
        (PySeq [1; 1 + 1]) (PyScalar 1) (Store [] []) = (Return Hc, σc)
    ∧ ∀ i j, (i < 2)%nat → (j < 2)%nat →
        ∃ ef eg, entry Hf i j = Some ef ∧ entry Hg i j = Some eg
                 ∧ entry Hc i j = Some ((1 + 1) * ef + 1 * eg).
Proof.
  refine (calc_hess_linear qbowl qbowl (1 + 1) 1 (Store [] [])
            (PySeq [1; 1 + 1]) (PyScalar 1) [1; 1 + 1] [0 + 1; 0 + 1]
            eq_refl eq_refl eq_refl _).
  repeat constructor; intros E; by apply (f_equal this) in E.
Defined.

End Exact.

(** * The program on binary64 numbers *)

Section Binary64.
Open Scope float_scope.

Lemma steps_half σ : step_sizes σ 2 (PyScalar 0.5) = Some [0.5; 0.5].
Proof. vm_compute. reflexivity. Qed.

Lemma calc_cov_negated_inverse_witness :
  calc_cov bowl (PySeq [1; 2]) (PyScalar 0.5) empty_store
  = (Return (mneg [[-2 / 3; 1 / 3]; [1 / 3; -2 / 3]]),
     (calc_hess bowl (PySeq [1; 2]) (PyScalar 0.5) empty_store).2).
Proof.
  refine (proj1 (calc_cov_negated_inverse bowl (PySeq [1; 2]) (PyScalar 0.5)
                   empty_store [[-2; -1]; [-1; -2]] _ _ _ _));
    vm_compute; reflexivity.
Defined.

Lemma calc_hess_symmetric_witness :
  ∃ hess σ',
    calc_hess bowl (PySeq [1; 2]) (PyScalar 0.5) empty_store = (Return hess, σ')
    ∧ shape 2 hess
    ∧ (∀ i j, entry hess i j = entry hess j i)
    ∧ evals σ' = hess_points [1; 2] [0.5; 0.5].
Proof.
  exact (calc_hess_symmetric bowl empty_store (PySeq [1; 2]) (PyScalar 0.5)
           [1; 2] [0.5; 0.5] eq_refl eq_refl eq_refl).
Defined.

Lemma calc_hess_diagonal_witness :
  ∃ hess σ',
    calc_hess bowl (PySeq [1; 2]) (PyScalar 0.5) empty_store = (Return hess, σ')
    ∧ entry hess 0 0 = Some (-2) ∧ entry hess 1 1 = Some (-2).
Proof.
  destruct (calc_hess_diagonal bowl empty_store (PySeq [1; 2]) (PyScalar 0.5)
              [1; 2] [0.5; 0.5] eq_refl (steps_half _) eq_refl)
    as (hess & σ' & Hrun & Hdiag).
  exists hess, σ'. split; [exact Hrun|]. split.
  - rewrite (Hdiag 0%nat 1 0.5 eq_refl eq_refl). vm_compute. reflexivity.
  - rewrite (Hdiag 1%nat 2 0.5 eq_refl eq_refl). vm_compute. reflexivity.
Defined.

Lemma calc_hess_off_diagonal_witness :
  ∃ hess σ',
    calc_hess bowl (PySeq [1; 2]) (PyScalar 0.5) empty_store = (Return hess, σ')
    ∧ entry hess 0 1 = Some (-1).
Proof.
  destruct (calc_hess_off_diagonal bowl empty_store (PySeq [1; 2]) (PyScalar 0.5)
              [1; 2] [0.5; 0.5] eq_refl (steps_half _) eq_refl)
    as (hess & σ' & Hrun & Hoff).
  exists hess, σ'. split; [exact Hrun|].
  destruct (Hoff 0%nat 1%nat 1 2 0.5 0.5 (Nat.lt_0_1) eq_refl eq_refl eq_refl eq_refl)
    as [-> _].
  vm_compute. reflexivity.
Defined.

Lemma dimension_mismatch_raises_witness :
  ∃ σ',
    calc_hess bowl (PySeq [1; 2]) (PySeq [0.5]) empty_store
    = (Raise (ValueError "h and x have different dimensions: 1 2"), σ')
    ∧ calc_cov bowl (PySeq [1; 2]) (PySeq [0.5]) empty_store
      = (Raise (ValueError "h and x have different dimensions: 1 2"), σ')
    ∧ evals σ' = [].
Proof.
  exact (dimension_mismatch_raises bowl empty_store (PySeq [1; 2]) (PySeq [0.5])
           [1; 2] [0.5] eq_refl eq_refl eq_refl (Nat.neq_succ_diag_r 1)).
Defined.



Lemma scalar_step_broadcast_witness :
  calc_hess bowl (PySeq [1; 2]) (PyScalar 0.5) empty_store
  = calc_hess bowl (PySeq [1; 2]) (PySeq [0.5; 0.5]) empty_store
  ∧ calc_cov bowl (PySeq [1; 2]) (PyScalar 0.5) empty_store
    = calc_cov bowl (PySeq [1; 2]) (PySeq [0.5; 0.5]) empty_store.
Proof.
  exact (scalar_step_broadcast bowl empty_store (PySeq [1; 2]) [1; 2] 0.5
           eq_refl eq_refl).
Defined.

(** The scalar step [-0.0] is broadcast to [0.0 + -0.0], which is [+0.0]:
    at the point [[-0.0]] the perturbed points then have the other zero
    than with the sequence [[-0.0]], and a function that tells the zeros
    apart gives another Hessian. *)
Lemma scalar_step_negative_zero :
  (calc_hess zero_probe (PySeq [-0]) (PyScalar (-0)) empty_store).1
  = Return [[nan]]
  ∧ (calc_hess zero_probe (PySeq [-0]) (PySeq (replicate 1 (-0))) empty_store).1
    = Return [[neg_infinity]]
  ∧ (calc_hess zero_probe (PySeq [-0]) (PyScalar (-0)) empty_store).1
    ≠ (calc_hess zero_probe (PySeq [-0]) (PySeq (replicate 1 (-0))) empty_store).1.
Proof.
  split_and!; [vm_compute; reflexivity..|].
  vm_compute. intros Heq.
  assert (Hnan : is_nan nan = is_nan neg_infinity) by congruence.
  vm_compute in Hnan. discriminate Hnan.
Qed.

Lemma calc_hess_evaluations_witness :
  ∃ hess σ' pts,
    calc_hess bowl (PySeq [1; 2]) (PyScalar 0.5) empty_store = (Return hess, σ')
    ∧ evals σ' = pts ∧ length pts = 10%nat
    ∧ pts = [[1.5; 2]; [1; 2]; [0.5; 2];
             [1.5; 2.5]; [1.5; 1.5]; [0.5; 2.5]; [0.5; 1.5];
             [1; 2.5]; [1; 2]; [1; 1.5]].
Proof.
  exact (calc_hess_evaluations bowl empty_store (PySeq [1; 2]) (PyScalar 0.5)
           [1; 2] [0.5; 0.5] eq_refl (steps_half _) eq_refl).
Defined.


Lemma step_values_unchecked_witness :
  ∃ σ', calc_hess bowl (PySeq [1; 2]) (PySeq [0; 0.5]) empty_store
        = (Return [[nan; nan]; [nan; -2]], σ').
Proof.
  destruct (step_values_unchecked bowl empty_store (PySeq [1; 2]) (PySeq [0; 0.5])
              [1; 2] [0; 0.5] eq_refl eq_refl eq_refl)
    as (_ & σ' & Hrun & _).
  exists σ'. exact Hrun.
Defined.

Lemma div_zero_not_finite (r d : float) :
  d = 0 ∨ d = -0 → r / d = nan ∨ r / d = infinity ∨ r / d = neg_infinity.
Proof.
  intros Hd. rewrite <- (SF2Prim_Prim2SF (r / d)), div_spec.
  destruct Hd as [-> | ->];
    destruct (Prim2SF r) as [[]| []| | [] ? ?]; cbn; auto.
Qed.

(** A zero step, of either sign, never gives a finite diagonal entry: the
    division by [h_i**2] is a division by zero, whose quotient in binary64
    is a NaN or an infinity. *)
Theorem zero_step_not_finite func σ x h xs hs i hi :
  contents σ x = Some xs → step_sizes σ (length xs) h = Some hs →
  length hs = length xs → i < length xs →
  hs !! i = Some hi → hi = 0 ∨ hi = -0 →
  ∃ hess σ' r, calc_hess func x h σ = (Return hess, σ')
    ∧ entry hess i i = Some r
    ∧ (r = nan ∨ r = infinity ∨ r = neg_infinity).
Proof.
  intros Hx Hh Hlen Hi Hhi Hzero.
  destruct (calc_hess_run func _ _ _ _ _ Hx Hh Hlen) as (σ' & Hrun & _ & _).
  eexists _, σ', _. split; [exact Hrun|]. split.
  - rewrite entry_hessian, hess_entry_diag, (step_lookup _ _ _ Hhi) by done.
    reflexivity.
  - unfold stencil_ii. cbn [s_div s_sqr FloatScalar].
    apply div_zero_not_finite. left. by destruct Hzero as [-> | ->].
Qed.

Lemma zero_step_not_finite_witness :
  ∃ hess σ' r,
    calc_hess bowl (PySeq [1; 2]) (PySeq [0; 0.5]) empty_store = (Return hess, σ')
    ∧ entry hess 0 0 = Some r
    ∧ (r = nan ∨ r = infinity ∨ r = neg_infinity).
Proof.
  exact (zero_step_not_finite bowl empty_store (PySeq [1; 2]) (PySeq [0; 0.5])
           [1; 2] [0; 0.5] 0%nat 0 eq_refl eq_refl eq_refl Nat.lt_0_2 eq_refl
           (or_introl eq_refl)).
Defined.

Lemma calc_partial_ii_out_of_range_witness :
  calc_partial_ii bowl 0 2 0.5 (Store [[1; 2]] [])
  = (Raise IndexError, Store [[1; 2]; [1; 2]] []).
Proof.
  exact (calc_partial_ii_out_of_range bowl (Store [[1; 2]] []) 0 [1; 2] 2 0.5
           eq_refl (Nat.le_refl 2)).
Defined.

Lemma calc_partial_ij_out_of_range_witness :
  ∃ σ', calc_partial_ij bowl 0 0 2 0.5 0.5 (Store [[1; 2]] [])
        = (Raise IndexError, σ')
    ∧ [[1; 2]] `prefix_of` heap σ' ∧ evals σ' = [].
Proof.
  exact (calc_partial_ij_out_of_range bowl (Store [[1; 2]] []) 0 [1; 2] 0 2 0.5 0.5
           eq_refl (or_intror (Nat.le_refl 2))).
Defined.

Lemma calc_partial_ij_same_index_witness :
  (calc_partial_ij bowl 0 0 0 0.25 0.5 (Store [[1; 2]] [])).2
  = Store [[1; 2]; [0.5; 2]] [[1.5; 2]; [0.5; 2]; [1.5; 2]; [0.5; 2]].
Proof.
  rewrite (calc_partial_ij_same_index bowl (Store [[1; 2]] []) 0 [1; 2] 0 1
             0.25 0.5 eq_refl eq_refl).
  vm_compute. reflexivity.
Defined.


Lemma raises_only_documented_errors_witness :
  ∃ hs, contents empty_store (PySeq [0.5]) = Some hs
    ∧ length hs ≠ 2%nat
    ∧ ValueError "h and x have different dimensions: 1 2"
      = ValueError (dimension_message (length hs) 2).
Proof.
  destruct (proj1 (raises_only_documented_errors bowl empty_store
                     (PySeq [1; 2]) (PySeq [0.5]) [1; 2]
                     (ValueError "h and x have different dimensions: 1 2")
                     (Store [[1; 2]; [0.5]] [])
                     eq_refl (mk_is_Some _ _ eq_refl)) eq_refl)
    as (hs & Hh & _ & Hlen & He).
  by exists hs.
Defined.

Lemma calc_hess_reads_stencil_points_witness :
  (calc_hess bowl (PySeq [1; 2]) (PyScalar 0.5) empty_store).1
  = (calc_hess bowl_but_at_nine (PySeq [1; 2]) (PyScalar 0.5) empty_store).1
  ∧ bowl [9; 2] ≠ bowl_but_at_nine [9; 2].
Proof.
  split.
  - refine (proj1 (calc_hess_reads_stencil_points bowl bowl_but_at_nine empty_store
                     (PySeq [1; 2]) (PyScalar 0.5) [1; 2] [0.5; 0.5]
                     eq_refl (steps_half _) eq_refl _)).
    intros p Hp. vm_compute in Hp.
    repeat (apply elem_of_cons in Hp as [->|Hp]); [..|by apply elem_of_nil in Hp];
      vm_compute; reflexivity.
  - vm_compute. intros E.
    assert (Hz : PrimFloat.eqb (-103) 0 = PrimFloat.eqb 0 0) by (by rewrite E).
    vm_compute in Hz. discriminate Hz.
Defined.

Lemma get_x_and_h_idempotent_witness :
  _get_x_and_h (NdArray 0) (NdArray 1) (Store [[1; 2]; [0.5; 0.5]] [])
  = (Return (0%nat, 1%nat), Store [[1; 2]; [0.5; 0.5]] []).
Proof.
  exact (get_x_and_h_idempotent empty_store (PySeq [1; 2]) (PySeq [0.5; 0.5])
           0 1 (Store [[1; 2]; [0.5; 0.5]] []) eq_refl).
Defined.

End Binary64.
